(** * Aquila-Resolve: the phoneme predictor and its surroundings

    A shallow embedding of the Python sources of Aquila-Resolve:

      - [Predictor]: [models/dp/model/predictor.py], the batched predictor
        ([Predictor.__call__] and [Predictor._predict_batch]);
      - [PyStr] and [Infer]: [infer.py], the bracket clean-up of
        [Infer.__call__], over a model of [str.replace];
      - [Remote]: [data/remote.py] and [Infer.__init__], the provisioning
        of the checkpoint;
      - [Lexicon] and [Filter]: the dictionary reader and the text filter,
        which the repository exercises through [tests/test_dict_reader.py]
        and [tests/test_filter.py].

    Python objects are modelled as records, dictionaries as [gmap]s keyed by
    strings, tensors as lists of rows, exceptions as an error result.  What
    a module takes from outside the sources (the sequence model, the
    tokenizers, the phonemizer, the server) is a field of a record. *)

From Stdlib Require Import QArith Ascii.
From stdpp Require Import base list strings gmap fin_maps.

Local Open Scope string_scope.
Local Open Scope list_scope.

(** ** Results of fallible Python code *)

Inductive result (E A : Type) : Type :=
| Ok (a : A)
| Raise (e : E).
Arguments Ok {E A} a.
Arguments Raise {E A} e.

Definition bind {E A B} (r : result E A) (k : A -> result E B) : result E B :=
  match r with
  | Ok a => k a
  | Raise e => Raise e
  end.

Fixpoint mapM {E A B} (f : A -> result E B) (l : list A) : result E (list B) :=
  match l with
  | [] => Ok []
  | a :: l' => bind (f a) (fun b => bind (mapM f l') (fun bs => Ok (b :: bs)))
  end.

(** * The predictor: models/dp/model/predictor.py *)

Module Predictor.

(** [Prediction] as [Predictor.__call__] builds it (predictor.py:74-78). *)
Record Prediction := mkPrediction {
  word : string;
  phonemes : string;
  phoneme_tokens : list string;
  confidence : Q;
  token_probs : list Q
}.

(** The two tokenizers held by the predictor, as far as the predictor uses
    them: [__call__(sentence, language)], [decode(sequence,
    remove_special_tokens)], [_get_start_index(language)], [end_index]. *)
Record Tokenizer := mkTokenizer {
  encode : string -> string -> list Z;
  decode : list Z -> bool -> list string;
  _get_start_index : string -> Z;
  end_index : Z
}.

(** The dictionary handed to [model.generate] (predictor.py:106-110):
    the padded inputs, their true lengths, and one start index per row. *)
Record Batch := mkBatch {
  text : list (list Z);
  text_len : list nat;
  start_index : list Z
}.

(** [self]: the external model is its [generate] capability, a function of
    the whole batch returning the rows of generated ids and of their
    probabilities. *)
Record Predictor := mkPredictor {
  generate : Batch -> list (list Z) * list (list Q);
  text_tokenizer : Tokenizer;
  phoneme_tokenizer : Tokenizer
}.

(** The Python runtime as the predictor sees it: [list(s)] of a [set] of
    strings enumerates its elements in an order the interpreter chooses
    (it depends on the string hashes of the process).  A set is represented
    by the sequence of its [add] calls. *)
Record Runtime := mkRuntime {
  list_of_set : list string -> list string
}.

(** What every interpreter guarantees of [list(s)]: each element once. *)
Definition runtime_ok (rt : Runtime) : Prop :=
  forall adds : list string,
    NoDup (list_of_set rt adds) /\
    forall w, w ∈ list_of_set rt adds <-> w ∈ adds.

(** One invocation of [model.generate], with the chunk of words it is for. *)
Record GenerateCall := mkGenerateCall {
  call_texts : list string;
  call_batch : Batch
}.

(** Modelled from the spec: [u_product] (preprocessing/utils.py) is not
    among the sources.  "Confidence = product of per-token probabilities";
    "empty probability sequence => confidence defined as 0, not 1".
    Probabilities are exact rationals. *)
Definition u_product (probs : list Q) : Q :=
  match probs with
  | [] => 0%Q
  | _ => fold_left Qmult probs 1%Q
  end.

(** Modelled from the spec: [_get_len_util_stop] (model/utils.py) is not
    among the sources.  "truncate the generated output at the first
    occurrence of the stop id (exclusive)"; "if no stop id occurs [...] use
    the full generated length": the position of the first stop id, or the
    length of the row. *)
Fixpoint _get_len_util_stop (sequence : list Z) (end_index : Z) : nat :=
  match sequence with
  | [] => 0
  | val :: rest =>
      if Z.eqb val end_index then 0 else S (_get_len_util_stop rest end_index)
  end.

(** Modelled from the spec: [u_batchify] (preprocessing/utils.py) is not
    among the sources.  "partition sorted words into chunks of at most
    batch_size": consecutive chunks of [batch_size] items, the last one
    possibly shorter.  [fuel] bounds the number of chunks. *)
Fixpoint u_batchify_aux {A} (fuel : nat) (input : list A) (batch_size : nat)
  : list (list A) :=
  match fuel with
  | O => []
  | S fuel' =>
      match input with
      | [] => []
      | _ => take batch_size input
               :: u_batchify_aux fuel' (drop batch_size input) batch_size
      end
  end.

Definition u_batchify {A} (input : list A) (batch_size : nat) : list (list A) :=
  u_batchify_aux (length input) input batch_size.

(** [torch.nn.utils.rnn.pad_sequence(sequences, batch_first=True,
    padding_value)]: every row is right-padded to the longest row. *)
Definition max_len (sequences : list (list Z)) : nat :=
  foldr (fun s m => Nat.max (length s) m) 0%nat sequences.

Definition pad_sequence (sequences : list (list Z)) (padding_value : Z)
  : list (list Z) :=
  let m := max_len sequences in
  map (fun s => s ++ replicate (m - length s) padding_value) sequences.

(** [sorted(l, key=lambda x: len(x))]: Python's sort is stable, so words of
    equal length keep the order they have in [l]. *)
Fixpoint insert_by_len (x : string) (l : list string) : list string :=
  match l with
  | [] => [x]
  | y :: l' =>
      if Nat.leb (String.length x) (String.length y)
      then x :: y :: l'
      else y :: insert_by_len x l'
  end.

Definition sorted_by_len (l : list string) : list string :=
  foldr insert_by_len [] l.

(** [zip(text_batch, output_batch, probs_batch)]: stops at the shortest. *)
Fixpoint zip3 {A B C} (la : list A) (lb : list B) (lc : list C)
  : list (A * B * C) :=
  match la, lb, lc with
  | a :: la', b :: lb', c :: lc' => (a, b, c) :: zip3 la' lb' lc'
  | _, _, _ => []
  end.

(** predictor.py:95-110: the batch built from one chunk of words. *)
Definition make_batch (self : Predictor) (language : string)
    (text_batch : list string) : Batch :=
  let input_batch :=
    map (fun text => encode (text_tokenizer self) text language) text_batch in
  let lens_batch := map (fun input => length input) input_batch in
  let input_batch := pad_sequence input_batch 0%Z in
  let start_indx := _get_start_index (phoneme_tokenizer self) language in
  let start_inds := replicate (length input_batch) start_indx in
  {| text := input_batch; text_len := lens_batch; start_index := start_inds |}.

(** predictor.py:115-116: one item of a chunk is cut at [seq_len] and
    stored under its word. *)
Definition store_item (self : Predictor)
    (predictions : gmap string (list Z * list Q))
    (item : string * list Z * list Q) : gmap string (list Z * list Q) :=
  let '(text, output, probs) := item in
  let seq_len := _get_len_util_stop output (end_index (phoneme_tokenizer self)) in
  <[text := (take seq_len output, take seq_len probs)]> predictions.

(** predictor.py:94-116: the body of the loop over chunks.  The state is
    the dictionary of predictions and the log of [generate] calls. *)
Definition predict_chunk (self : Predictor) (language : string)
    (st : gmap string (list Z * list Q) * list GenerateCall)
    (text_batch : list string)
  : gmap string (list Z * list Q) * list GenerateCall :=
  let '(predictions, calls) := st in
  let batch := make_batch self language text_batch in
  let '(output_batch, probs_batch) := generate self batch in
  (foldl (store_item self) predictions
         (zip3 text_batch output_batch probs_batch),
   calls ++ [mkGenerateCall text_batch batch]).

(** [Predictor._predict_batch] (predictor.py:83-118), with its call log. *)
Definition _predict_batch_log (self : Predictor) (texts : list string)
    (batch_size : nat) (language : string)
  : gmap string (list Z * list Q) * list GenerateCall :=
  let text_batches := u_batchify texts batch_size in
  foldl (predict_chunk self language) (∅, []) text_batches.

Definition _predict_batch (self : Predictor) (texts : list string)
    (batch_size : nat) (language : string) : gmap string (list Z * list Q) :=
  fst (_predict_batch_log self texts batch_size language).

(** predictor.py:54-57: the word decodes to nothing. *)
Definition decodes_empty (self : Predictor) (lang word : string) : bool :=
  let input := encode (text_tokenizer self) word lang in
  let decoded := decode (text_tokenizer self) input true in
  Nat.eqb (length decoded) 0.

(** predictor.py:53-60: the first loop, returning the dictionary of
    short-circuited words and the [add] calls on [valid_texts]. *)
Definition prefilter (self : Predictor) (lang : string) (words : list string)
  : gmap string (list Z * list Q) * list string :=
  foldl (fun '(predictions, valid_texts) word =>
           if decodes_empty self lang word
           then (<[word := ([], [])]> predictions, valid_texts)
           else (predictions, valid_texts ++ [word]))
        (∅, []) words.

(** predictor.py:69-78: the prediction of one word; [predictions[word]]
    raises [KeyError] on a missing key. *)
Inductive exn := KeyError (key : string).

Definition assemble (self : Predictor)
    (predictions : gmap string (list Z * list Q)) (word : string)
  : result exn Prediction :=
  match predictions !! word with
  | None => Raise (KeyError word)
  | Some (tokens, probs) =>
      let out_phons := decode (phoneme_tokenizer self) tokens true in
      let out_phons_tokens := decode (phoneme_tokenizer self) tokens false in
      Ok {| word := word;
            phonemes := String.concat "" out_phons;
            phoneme_tokens := out_phons_tokens;
            confidence := u_product probs;
            token_probs := probs |}
  end.

(** [Predictor.__call__] (predictor.py:33-80), with the log of the calls
    made to the model. *)
Definition call_log (rt : Runtime) (self : Predictor) (words : list string)
    (lang : string) (batch_size : nat)
  : list GenerateCall * result exn (list Prediction) :=
  let '(predictions, valid_texts) := prefilter self lang words in
  let valid_texts := sorted_by_len (list_of_set rt valid_texts) in
  let '(batch_pred, calls) :=
    _predict_batch_log self valid_texts batch_size lang in
  let predictions := batch_pred ∪ predictions in
  (calls, mapM (assemble self predictions) words).

Definition call (rt : Runtime) (self : Predictor) (words : list string)
    (lang : string) (batch_size : nat) : result exn (list Prediction) :=
  snd (call_log rt self words lang batch_size).

(** ** Facts about the helpers *)

Lemma mapM_Ok_Forall2 {E A B} (f : A -> result E B) (l : list A) :
  (forall a, a ∈ l -> exists b, f a = Ok b) ->
  exists bs, mapM f l = Ok bs /\ Forall2 (fun a b => f a = Ok b) l bs.
Proof.
  induction l as [|a l IH]; intros Hall; simpl.
  - exists []. split; [reflexivity | constructor].
  - destruct (Hall a) as [b Hb]; [left |].
    destruct IH as (bs & Hbs & HF).
    { intros a' Ha'. apply Hall. by right. }
    exists (b :: bs). rewrite Hb, Hbs. simpl. split; [reflexivity |].
    by constructor.
Qed.


Lemma u_batchify_aux_concat {A} (fuel : nat) (input : list A) (batch_size : nat) :
  (0 < batch_size)%nat -> (length input <= fuel)%nat ->
  concat (u_batchify_aux fuel input batch_size) = input.
Proof.
  intros Hbs. revert input.
  induction fuel as [|fuel IH]; intros input Hlen; simpl.
  - destruct input; [reflexivity | simpl in Hlen; lia].
  - destruct input as [|a input]; [reflexivity |].
    cbn [concat]. rewrite IH.
    + apply take_drop.
    + rewrite length_drop. simpl in *. lia.
Qed.

Lemma u_batchify_concat {A} (input : list A) (batch_size : nat) :
  (0 < batch_size)%nat -> concat (u_batchify input batch_size) = input.
Proof. intros Hbs. by apply u_batchify_aux_concat. Qed.

Lemma u_batchify_aux_chunks {A} (fuel : nat) (input : list A) (batch_size : nat) :
  (0 < batch_size)%nat ->
  Forall (fun chunk => (0 < length chunk <= batch_size)%nat)
         (u_batchify_aux fuel input batch_size).
Proof.
  intros Hbs. revert input.
  induction fuel as [|fuel IH]; intros input; simpl; [constructor |].
  destruct input as [|a input]; [constructor |].
  constructor; [| apply IH].
  rewrite length_take. simpl. lia.
Qed.

Lemma insert_by_len_perm (x : string) (l : list string) :
  insert_by_len x l ≡ₚ x :: l.
Proof.
  induction l as [|y l IH]; simpl; [reflexivity |].
  destruct (Nat.leb _ _); [reflexivity |].
  rewrite IH. apply Permutation_swap.
Qed.

Lemma sorted_by_len_perm (l : list string) : sorted_by_len l ≡ₚ l.
Proof.
  induction l as [|x l IH]; simpl; [reflexivity |].
  rewrite insert_by_len_perm. by constructor.
Qed.

Lemma take_len_util_stop_no_stop (sequence : list Z) (stop : Z) :
  stop ∉ take (_get_len_util_stop sequence stop) sequence.
Proof.
  induction sequence as [|v rest IH]; simpl.
  - apply not_elem_of_nil.
  - destruct (Z.eqb_spec v stop) as [->|Hne]; simpl.
    + apply not_elem_of_nil.
    + rewrite not_elem_of_cons. split; [congruence | exact IH].
Qed.

Lemma drop_len_util_stop (sequence : list Z) (stop : Z) :
  drop (_get_len_util_stop sequence stop) sequence = [] \/
  exists rest, drop (_get_len_util_stop sequence stop) sequence = stop :: rest.
Proof.
  induction sequence as [|v rest IH]; simpl.
  - by left.
  - destruct (Z.eqb_spec v stop) as [->|Hne]; simpl.
    + right. by exists rest.
    + exact IH.
Qed.

Lemma len_util_stop_absent (sequence : list Z) (stop : Z) :
  stop ∉ sequence -> _get_len_util_stop sequence stop = length sequence.
Proof.
  induction sequence as [|v rest IH]; simpl; [reflexivity |].
  rewrite not_elem_of_cons. intros [Hne Hrest].
  destruct (Z.eqb_spec v stop) as [->|_]; [congruence |].
  by rewrite IH.
Qed.

Lemma len_util_stop_le (sequence : list Z) (stop : Z) :
  (_get_len_util_stop sequence stop <= length sequence)%nat.
Proof.
  induction sequence as [|v rest IH]; simpl; [lia |].
  destruct (Z.eqb v stop); simpl; lia.
Qed.

(** ** The loop over chunks, unfolded *)

(** The items one chunk stores: its words zipped with the rows the model
    returns for it. *)
Definition items_of (self : Predictor) (language : string)
    (text_batch : list string) : list (string * list Z * list Q) :=
  let '(output_batch, probs_batch) :=
    generate self (make_batch self language text_batch) in
  zip3 text_batch output_batch probs_batch.

Definition item_key (item : string * list Z * list Q) : string := item.1.1.

(** What [store_item] stores for a row and its probabilities. *)
Definition truncated (self : Predictor) (output : list Z) (probs : list Q)
  : list Z * list Q :=
  let seq_len := _get_len_util_stop output (end_index (phoneme_tokenizer self)) in
  (take seq_len output, take seq_len probs).

Lemma predict_chunk_fold (self : Predictor) (language : string)
    (batches : list (list string))
    (m : gmap string (list Z * list Q)) (calls : list GenerateCall) :
  foldl (predict_chunk self language) (m, calls) batches =
  (foldl (store_item self) m (concat (map (items_of self language) batches)),
   calls ++ map (fun tb => mkGenerateCall tb (make_batch self language tb)) batches).
Proof.
  revert m calls. induction batches as [|tb batches IH]; intros m calls; simpl.
  - by rewrite app_nil_r.
  - unfold predict_chunk at 1. unfold items_of at 1.
    destruct (generate self (make_batch self language tb)) as [outs probs].
    rewrite IH, foldl_app, <- app_assoc. reflexivity.
Qed.

Lemma store_fold_notin (self : Predictor) items
    (m : gmap string (list Z * list Q)) (w : string) :
  w ∉ map item_key items ->
  foldl (store_item self) m items !! w = m !! w.
Proof.
  revert m. induction items as [|[[t o] p] items IH]; intros m; simpl.
  - reflexivity.
  - rewrite not_elem_of_cons. intros [Hne Hnotin].
    rewrite IH by assumption.
    unfold item_key in Hne. simpl in Hne.
    by rewrite lookup_insert_ne.
Qed.

Lemma store_fold_last (self : Predictor) l1 l2 w o p
    (m : gmap string (list Z * list Q)) :
  w ∉ map item_key l2 ->
  foldl (store_item self) m (l1 ++ (w, o, p) :: l2) !! w
  = Some (truncated self o p).
Proof.
  intros Hnotin. rewrite foldl_app. simpl.
  rewrite store_fold_notin by assumption.
  by rewrite lookup_insert_eq.
Qed.

Lemma store_fold_in (self : Predictor) items
    (m : gmap string (list Z * list Q)) (w : string) :
  w ∈ map item_key items ->
  exists o p, (w, o, p) ∈ items /\
    foldl (store_item self) m items !! w = Some (truncated self o p).
Proof.
  revert m. induction items as [|[[t o] p] items IH]; intros m; simpl.
  - intros H. by apply elem_of_nil in H.
  - intros Hin.
    destruct (decide (w ∈ map item_key items)) as [Hlater|Hnot].
    + destruct (IH (store_item self m (t, o, p)) Hlater) as (o' & p' & Hi & Hl).
      exists o', p'. split; [by right | exact Hl].
    + apply elem_of_cons in Hin as [->|Hin]; [| contradiction].
      exists o, p. split; [by left |].
      rewrite store_fold_notin by assumption.
      unfold item_key. simpl. by rewrite lookup_insert_eq.
Qed.

Lemma zip3_keys (la : list string) (lb : list (list Z)) (lc : list (list Q)) :
  (length la <= length lb)%nat -> (length la <= length lc)%nat ->
  map item_key (zip3 la lb lc) = la.
Proof.
  revert lb lc. induction la as [|a la IH]; intros lb lc Hb Hc; simpl.
  - reflexivity.
  - destruct lb as [|b lb]; [simpl in Hb; lia |].
    destruct lc as [|c lc]; [simpl in Hc; lia |].
    simpl in *. unfold item_key at 1. simpl. f_equal. apply IH; lia.
Qed.

Lemma zip3_lookup {A B C} (la : list A) (lb : list B) (lc : list C)
    (i : nat) a b c :
  la !! i = Some a -> lb !! i = Some b -> lc !! i = Some c ->
  zip3 la lb lc !! i = Some (a, b, c).
Proof.
  revert lb lc i.
  induction la as [|a' la IH]; intros lb lc i Ha Hb Hc; [done |].
  destruct lb as [|b' lb]; [done |]. destruct lc as [|c' lc]; [done |].
  destruct i as [|i]; simpl in *.
  - congruence.
  - by apply IH.
Qed.

Lemma zip3_elem_of {A B C} (la : list A) (lb : list B) (lc : list C) a b c :
  (a, b, c) ∈ zip3 la lb lc ->
  exists i, la !! i = Some a /\ lb !! i = Some b /\ lc !! i = Some c.
Proof.
  revert lb lc.
  induction la as [|a' la IH]; intros lb lc; simpl.
  - intros H. by apply elem_of_nil in H.
  - destruct lb as [|b' lb]; [intros H; by apply elem_of_nil in H |].
    destruct lc as [|c' lc]; [intros H; by apply elem_of_nil in H |].
    intros [Heq|Hin]%elem_of_cons.
    + injection Heq as -> -> ->. by exists 0%nat.
    + destruct (IH _ _ Hin) as (i & ? & ? & ?). by exists (S i).
Qed.

(** ** The pre-filter *)

Lemma prefilter_spec (self : Predictor) (lang : string) (words : list string)
    (m : gmap string (list Z * list Q)) (v : list string) :
  let r := foldl (fun '(predictions, valid_texts) word =>
                    if decodes_empty self lang word
                    then (<[word := ([], [])]> predictions, valid_texts)
                    else (predictions, valid_texts ++ [word]))
                 (m, v) words in
  r.2 = v ++ filter (fun w => decodes_empty self lang w = false) words /\
  forall w, r.1 !! w =
            if decide (w ∈ words /\ decodes_empty self lang w = true)
            then Some ([], []) else m !! w.
Proof.
  revert m v. induction words as [|x words IH]; intros m v; cbn [foldl].
  - split; [by rewrite app_nil_r |].
    intros w. cbn [fst]. case_decide as Hd; [| reflexivity].
    destruct Hd as [Hin _]. by apply elem_of_nil in Hin.
  - destruct (decodes_empty self lang x) eqn:Hx.
    + destruct (IH (<[x := ([], [])]> m) v) as [Hv Hm]. split.
      * rewrite Hv. f_equal. rewrite filter_cons_False; [reflexivity |].
        rewrite Hx. discriminate.
      * intros w. rewrite Hm.
        destruct (decide (w ∈ words /\ decodes_empty self lang w = true))
          as [[Hin He]|Hno].
        -- rewrite decide_True; [reflexivity |]. split; [by right | exact He].
        -- destruct (decide (x = w)) as [->|Hne].
           ++ rewrite lookup_insert_eq.
              rewrite decide_True; [reflexivity |]. split; [by left | exact Hx].
           ++ rewrite lookup_insert_ne by assumption.
              rewrite decide_False; [reflexivity |].
              intros [[->|Hin]%elem_of_cons He]; [congruence |].
              apply Hno. by split.
    + destruct (IH m (v ++ [x])) as [Hv Hm]. split.
      * rewrite Hv, <- app_assoc. simpl. f_equal.
        by rewrite filter_cons_True.
      * intros w. rewrite Hm.
        destruct (decide (w ∈ words /\ decodes_empty self lang w = true))
          as [[Hin He]|Hno].
        -- rewrite decide_True; [reflexivity |]. split; [by right | exact He].
        -- rewrite decide_False; [reflexivity |].
           intros [[->|Hin]%elem_of_cons He]; [congruence |].
           apply Hno. by split.
Qed.

Lemma prefilter_valid (self : Predictor) (lang : string) (words : list string) :
  (prefilter self lang words).2
  = filter (fun w => decodes_empty self lang w = false) words.
Proof. apply (prefilter_spec self lang words ∅ []). Qed.

Lemma prefilter_lookup (self : Predictor) (lang : string) (words : list string)
    (w : string) :
  (prefilter self lang words).1 !! w =
  if decide (w ∈ words /\ decodes_empty self lang w = true)
  then Some ([], []) else None.
Proof.
  destruct (prefilter_spec self lang words ∅ []) as [_ H].
  unfold prefilter. rewrite H. by rewrite lookup_empty.
Qed.

(** The words handed to [_predict_batch] (predictor.py:62). *)
Definition valid_texts (rt : Runtime) (self : Predictor) (lang : string)
    (words : list string) : list string :=
  sorted_by_len (list_of_set rt (prefilter self lang words).2).

Lemma elem_of_valid_texts (rt : Runtime) (self : Predictor) (lang : string)
    (words : list string) (w : string) :
  runtime_ok rt ->
  w ∈ valid_texts rt self lang words <->
  w ∈ words /\ decodes_empty self lang w = false.
Proof.
  intros Hrt. unfold valid_texts.
  rewrite sorted_by_len_perm.
  destruct (Hrt (prefilter self lang words).2) as [_ Hel].
  rewrite Hel, prefilter_valid, list_elem_of_filter. tauto.
Qed.

Lemma valid_texts_NoDup (rt : Runtime) (self : Predictor) (lang : string)
    (words : list string) :
  runtime_ok rt -> NoDup (valid_texts rt self lang words).
Proof.
  intros Hrt. unfold valid_texts.
  rewrite sorted_by_len_perm. apply Hrt.
Qed.

(** [Predictor.__call__] with its two loops unfolded. *)
Lemma call_log_unfold (rt : Runtime) (self : Predictor) (words : list string)
    (lang : string) (batch_size : nat) :
  let batches := u_batchify (valid_texts rt self lang words) batch_size in
  call_log rt self words lang batch_size =
  (map (fun tb => mkGenerateCall tb (make_batch self lang tb)) batches,
   mapM (assemble self
           (foldl (store_item self) ∅ (concat (map (items_of self lang) batches))
            ∪ (prefilter self lang words).1))
        words).
Proof.
  unfold call_log, valid_texts, _predict_batch_log.
  destruct (prefilter self lang words) as [pre adds]. simpl.
  rewrite predict_chunk_fold. reflexivity.
Qed.

(** The dictionary [predictions] after [predictions.update(batch_pred)]
    (predictor.py:65). *)
Definition final_predictions (rt : Runtime) (self : Predictor)
    (words : list string) (lang : string) (batch_size : nat)
  : gmap string (list Z * list Q) :=
  foldl (store_item self) ∅
        (concat (map (items_of self lang)
                     (u_batchify (valid_texts rt self lang words) batch_size)))
  ∪ (prefilter self lang words).1.

Lemma call_eq (rt : Runtime) (self : Predictor) (words : list string)
    (lang : string) (batch_size : nat) :
  call rt self words lang batch_size =
  mapM (assemble self (final_predictions rt self words lang batch_size)) words.
Proof. unfold call. by rewrite call_log_unfold. Qed.

(** The contract of the external model (spec, section 6): one row of ids
    and one row of probabilities per row of the batch. *)
Definition generate_shape (self : Predictor) : Prop :=
  forall b : Batch,
    length (generate self b).1 = length (text b) /\
    length (generate self b).2 = length (text b).

Lemma make_batch_rows (self : Predictor) (lang : string) (tb : list string) :
  length (text (make_batch self lang tb)) = length tb.
Proof. unfold make_batch, pad_sequence. simpl. by rewrite !length_map. Qed.

Lemma items_of_keys (self : Predictor) (lang : string) (tb : list string) :
  generate_shape self -> map item_key (items_of self lang tb) = tb.
Proof.
  intros Hshape. unfold items_of.
  destruct (Hshape (make_batch self lang tb)) as [Ho Hp].
  rewrite make_batch_rows in Ho, Hp.
  destruct (generate self (make_batch self lang tb)) as [outs probs].
  cbn [fst snd] in Ho, Hp. apply zip3_keys; lia.
Qed.

Lemma all_items_keys (self : Predictor) (lang : string)
    (batches : list (list string)) :
  generate_shape self ->
  map item_key (concat (map (items_of self lang) batches)) = concat batches.
Proof.
  intros Hshape. induction batches as [|tb batches IH]; simpl; [reflexivity |].
  rewrite map_app, IH, items_of_keys by assumption. reflexivity.
Qed.

Lemma final_predictions_total (rt : Runtime) (self : Predictor)
    (words : list string) (lang : string) (batch_size : nat) (w : string) :
  runtime_ok rt -> generate_shape self -> (0 < batch_size)%nat ->
  w ∈ words ->
  is_Some (final_predictions rt self words lang batch_size !! w).
Proof.
  intros Hrt Hshape Hbs Hin. unfold final_predictions.
  apply lookup_union_is_Some.
  destruct (decodes_empty self lang w) eqn:He.
  - right. rewrite prefilter_lookup, decide_True; [by eexists | by split].
  - left.
    assert (Hv : w ∈ valid_texts rt self lang words).
    { apply elem_of_valid_texts; [assumption | by split]. }
    rewrite <- (u_batchify_concat _ batch_size Hbs) in Hv.
    rewrite <- (all_items_keys self lang) in Hv by assumption.
    destruct (store_fold_in self _ ∅ w Hv) as (o & p & _ & Hl).
    rewrite Hl. by eexists.
Qed.

Lemma assemble_Ok (self : Predictor) (m : gmap string (list Z * list Q))
    (w : string) (p : Prediction) :
  assemble self m w = Ok p ->
  exists tokens,
    m !! w = Some (tokens, token_probs p) /\
    word p = w /\
    phonemes p = String.concat "" (decode (phoneme_tokenizer self) tokens true) /\
    phoneme_tokens p = decode (phoneme_tokenizer self) tokens false /\
    confidence p = u_product (token_probs p).
Proof.
  unfold assemble. destruct (m !! w) as [[tokens probs]|]; [| discriminate].
  intros [= <-]. exists tokens. simpl. repeat split; reflexivity.
Qed.

Lemma call_total (rt : Runtime) (self : Predictor) (words : list string)
    (lang : string) (batch_size : nat) :
  runtime_ok rt -> generate_shape self -> (0 < batch_size)%nat ->
  exists out,
    call rt self words lang batch_size = Ok out /\
    Forall2 (fun w p =>
               assemble self (final_predictions rt self words lang batch_size) w
               = Ok p) words out.
Proof.
  intros Hrt Hshape Hbs. rewrite call_eq.
  apply mapM_Ok_Forall2. intros w Hin.
  destruct (final_predictions_total rt self words lang batch_size w)
    as [[tokens probs] Hl]; try assumption.
  unfold assemble. rewrite Hl. by eexists.
Qed.

(** ** Order preservation (claim C4) *)

(** C4.  Under the model's contract (one output row per input row) and a
    positive batch size, [Predictor.__call__] returns a list of the length
    of [words], whose i-th prediction carries the i-th word, and equal words
    receive equal predictions. *)
Theorem call_order_preserving (rt : Runtime) (self : Predictor)
    (words : list string) (lang : string) (batch_size : nat) :
  runtime_ok rt -> generate_shape self -> (0 < batch_size)%nat ->
  exists out,
    call rt self words lang batch_size = Ok out /\
    length out = length words /\
    map word out = words /\
    forall i j, words !! i = words !! j -> out !! i = out !! j.
Proof.
  intros Hrt Hshape Hbs.
  destruct (call_total rt self words lang batch_size Hrt Hshape Hbs)
    as (out & Hcall & HF).
  exists out. split; [exact Hcall |].
  split; [symmetry; eapply Forall2_length; exact HF |].
  split.
  - clear Hcall. induction HF as [|w p ws ps Hwp _ IH]; simpl; [reflexivity |].
    apply assemble_Ok in Hwp as (_ & _ & -> & _). by rewrite IH.
  - intros i j Hij.
    destruct (words !! i) as [w|] eqn:Hi.
    + symmetry in Hij.
      destruct (Forall2_lookup_l _ _ _ _ _ HF Hi) as (pi & Hpi & Hai).
      destruct (Forall2_lookup_l _ _ _ _ _ HF Hij) as (pj & Hpj & Haj).
      rewrite Hpi, Hpj. congruence.
    + symmetry in Hij.
      apply lookup_ge_None in Hi, Hij.
      apply Forall2_length in HF.
      rewrite (proj2 (lookup_ge_None out i)) by lia.
      rewrite (proj2 (lookup_ge_None out j)) by lia. reflexivity.
Qed.

(** ** Confidence (claim C2) *)



(** A word that decodes to nothing keeps the empty entry the first loop
    gave it. *)
Lemma final_predictions_empty (rt : Runtime) (self : Predictor)
    (words : list string) (lang : string) (batch_size : nat) (w : string) :
  runtime_ok rt -> (0 < batch_size)%nat ->
  w ∈ words -> decodes_empty self lang w = true ->
  final_predictions rt self words lang batch_size !! w = Some ([], []).
Proof.
  intros Hrt Hbs Hin He. unfold final_predictions.
  rewrite lookup_union_r.
  - rewrite prefilter_lookup, decide_True; [reflexivity | by split].
  - destruct (foldl _ _ _ !! w) as [v|] eqn:Hl; [| reflexivity].
    exfalso.
    destruct (decide (w ∈ map item_key
                (concat (map (items_of self lang)
                   (u_batchify (valid_texts rt self lang words) batch_size)))))
      as [Hk|Hk].
    + assert (Hv : w ∈ valid_texts rt self lang words).
      { rewrite <- (u_batchify_concat _ batch_size Hbs).
        clear -Hk. revert Hk.
        induction (u_batchify _ _) as [|tb batches IH]; simpl; [done |].
        rewrite map_app, !elem_of_app. intros [Hk|Hk]; [left | right; auto].
        unfold items_of in Hk.
        destruct (generate self _) as [outs probs].
        apply list_elem_of_fmap in Hk as ([[t o] p] & -> & Hit).
        apply zip3_elem_of in Hit as (i & Hi & _).
        unfold item_key. simpl. eapply list_elem_of_lookup_2. exact Hi. }
      apply elem_of_valid_texts in Hv as [_ Hv]; [congruence | assumption].
    + rewrite store_fold_notin in Hl by assumption.
      by rewrite lookup_empty in Hl.
Qed.


(** ** Truncation at the stop id (claim C3) *)

Lemma NoDup_map_elem_inj {A B} (f : A -> B) (l : list A) (x y : A) :
  NoDup (map f l) -> x ∈ l -> y ∈ l -> f x = f y -> x = y.
Proof.
  induction l as [|a l IH]; simpl; intros Hnd Hx Hy Hf.
  - by apply elem_of_nil in Hx.
  - apply NoDup_cons in Hnd as [Hnotin Hnd].
    apply elem_of_cons in Hx as [->|Hx]; apply elem_of_cons in Hy as [->|Hy].
    + reflexivity.
    + exfalso. apply Hnotin. rewrite Hf. by apply (list_elem_of_fmap_2 f).
    + exfalso. apply Hnotin. rewrite <- Hf. by apply (list_elem_of_fmap_2 f).
    + by apply IH.
Qed.

Lemma zip3_keys_sublist (la : list string) (lb : list (list Z))
    (lc : list (list Q)) :
  map item_key (zip3 la lb lc) `sublist_of` la.
Proof.
  revert lb lc. induction la as [|a la IH]; intros lb lc; simpl.
  - constructor.
  - destruct lb as [|b lb]; [apply sublist_nil_l |].
    destruct lc as [|c lc]; [apply sublist_nil_l |].
    simpl. unfold item_key at 1. simpl. constructor. apply IH.
Qed.

Lemma all_items_keys_sublist (self : Predictor) (lang : string)
    (batches : list (list string)) :
  map item_key (concat (map (items_of self lang) batches))
  `sublist_of` concat batches.
Proof.
  induction batches as [|tb batches IH]; simpl; [constructor |].
  rewrite map_app. apply sublist_app; [| exact IH].
  unfold items_of. destruct (generate self _) as [outs probs].
  apply zip3_keys_sublist.
Qed.

Lemma store_fold_NoDup (self : Predictor) items
    (m : gmap string (list Z * list Q)) t o p :
  NoDup (map item_key items) -> (t, o, p) ∈ items ->
  foldl (store_item self) m items !! t = Some (truncated self o p).
Proof.
  intros Hnd Hin.
  destruct (store_fold_in self items m t) as (o' & p' & Hin' & Hl).
  { by apply (list_elem_of_fmap_2 item_key) in Hin. }
  rewrite Hl.
  assert (Heq : (t, o', p') = (t, o, p)).
  { by apply (NoDup_map_elem_inj item_key items). }
  by injection Heq as -> ->.
Qed.

Lemma predict_batch_eq (self : Predictor) (texts : list string)
    (batch_size : nat) (language : string) :
  _predict_batch self texts batch_size language =
  foldl (store_item self) ∅
        (concat (map (items_of self language) (u_batchify texts batch_size))).
Proof.
  unfold _predict_batch, _predict_batch_log.
  by rewrite predict_chunk_fold.
Qed.

(** C3.  For every item of every chunk ([texts] being distinct words, as
    [__call__] passes them), [_predict_batch] stores under the item's word
    the generated row and its probabilities cut at [seq_len]: the stop id
    is not among the stored ids, what was cut off is empty or begins with
    the stop id, and a row without stop id is stored whole. *)
Theorem predict_batch_truncates (self : Predictor) (texts : list string)
    (batch_size : nat) (language : string)
    (tb : list string) (i : nat) (t : string) (o : list Z) (p : list Q) :
  (0 < batch_size)%nat -> NoDup texts ->
  tb ∈ u_batchify texts batch_size ->
  tb !! i = Some t ->
  (generate self (make_batch self language tb)).1 !! i = Some o ->
  (generate self (make_batch self language tb)).2 !! i = Some p ->
  let stop := end_index (phoneme_tokenizer self) in
  let seq_len := _get_len_util_stop o stop in
  _predict_batch self texts batch_size language !! t
    = Some (take seq_len o, take seq_len p) /\
  (stop ∉ take seq_len o) /\
  (drop seq_len o = [] \/ exists rest, drop seq_len o = stop :: rest) /\
  (stop ∉ o -> take seq_len o = o /\ take seq_len p = take (length o) p).
Proof.
  intros Hbs Hnd Htb Ht Ho Hp stop seq_len.
  split; [| split; [| split]].
  - rewrite predict_batch_eq. apply store_fold_NoDup.
    + eapply sublist_NoDup; [| apply all_items_keys_sublist].
      by rewrite u_batchify_concat.
    + apply list_elem_of_In, in_concat.
      exists (items_of self language tb). split.
      * apply list_elem_of_In.
        by apply (list_elem_of_fmap_2 (items_of self language)).
      * apply list_elem_of_In. unfold items_of.
        destruct (generate self (make_batch self language tb)) as [outs probs].
        eapply list_elem_of_lookup_2. apply zip3_lookup; eassumption.
  - apply take_len_util_stop_no_stop.
  - apply drop_len_util_stop.
  - intros Habs. subst seq_len.
    rewrite len_util_stop_absent by assumption.
    split; [apply firstn_all | reflexivity].
Qed.

(** ** Words that decode to nothing (claim C6) *)



(** ** Models that treat each row on its own *)

(** The rows of a batch, as the model receives them. *)
Definition rows (b : Batch) : list (list Z * nat * Z) :=
  zip3 (text b) (text_len b) (start_index b).

(** [generate] is row-wise when the row it returns for an input row is a
    function [f] of that row's unpadded ids and start index alone: it
    depends neither on the padding nor on the other rows of the batch. *)
Definition row_wise (self : Predictor) (f : list Z -> Z -> list Z * list Q)
  : Prop :=
  forall b : Batch,
    generate self b =
    (map (fun r => (f (take r.1.2 r.1.1) r.2).1) (rows b),
     map (fun r => (f (take r.1.2 r.1.1) r.2).2) (rows b)).

(** What a row-wise model generates for a word. *)
Definition row_output (self : Predictor) (lang : string)
    (f : list Z -> Z -> list Z * list Q) (w : string) : list Z * list Q :=
  f (encode (text_tokenizer self) w lang)
    (_get_start_index (phoneme_tokenizer self) lang).

(** The entry of [predictions] for a word, with a row-wise model. *)
Definition row_entry (self : Predictor) (lang : string)
    (f : list Z -> Z -> list Z * list Q) (w : string) : list Z * list Q :=
  if decodes_empty self lang w then ([], [])
  else truncated self (row_output self lang f w).1 (row_output self lang f w).2.

(** The prediction of a word, with a row-wise model. *)
Definition row_prediction (self : Predictor) (lang : string)
    (f : list Z -> Z -> list Z * list Q) (w : string) : Prediction :=
  let '(tokens, probs) := row_entry self lang f w in
  {| word := w;
     phonemes := String.concat "" (decode (phoneme_tokenizer self) tokens true);
     phoneme_tokens := decode (phoneme_tokenizer self) tokens false;
     confidence := u_product probs;
     token_probs := probs |}.

Lemma zip3_map {A B C D} (f : A -> B) (g : A -> C) (h : A -> D) (l : list A) :
  zip3 (map f l) (map g l) (map h l) = map (fun x => (f x, g x, h x)) l.
Proof. induction l as [|x l IH]; simpl; [reflexivity | by rewrite IH]. Qed.

Lemma replicate_map {A B} (l : list A) (b : B) :
  replicate (length l) b = map (fun _ => b) l.
Proof. induction l as [|x l IH]; simpl; [reflexivity | by rewrite IH]. Qed.

Lemma rows_make_batch (self : Predictor) (lang : string) (tb : list string) :
  exists m : nat,
    rows (make_batch self lang tb) =
    map (fun t => let e := encode (text_tokenizer self) t lang in
                  (e ++ replicate (m - length e) 0%Z, length e,
                   _get_start_index (phoneme_tokenizer self) lang)) tb.
Proof.
  exists (max_len (map (fun t => encode (text_tokenizer self) t lang) tb)).
  unfold rows, make_batch, pad_sequence. cbn [text text_len start_index].
  rewrite !length_map, !map_map, replicate_map.
  apply (zip3_map
           (fun t => encode (text_tokenizer self) t lang ++ replicate _ 0%Z)
           (fun t => length (encode (text_tokenizer self) t lang))
           (fun _ => _get_start_index (phoneme_tokenizer self) lang)).
Qed.

Lemma items_of_row_wise (self : Predictor) (lang : string) f
    (tb : list string) :
  row_wise self f ->
  items_of self lang tb =
  map (fun t => (t, (row_output self lang f t).1, (row_output self lang f t).2))
      tb.
Proof.
  intros Hrw. unfold items_of. rewrite Hrw.
  destruct (rows_make_batch self lang tb) as [m ->].
  rewrite !map_map. cbn [fst snd]. unfold row_output.
  rewrite <- (map_id tb) at 1.
  rewrite zip3_map. apply map_ext. intros t.
  by rewrite take_app_length.
Qed.

Lemma all_items_row_wise (self : Predictor) (lang : string) f
    (batches : list (list string)) :
  row_wise self f ->
  concat (map (items_of self lang) batches) =
  map (fun t => (t, (row_output self lang f t).1, (row_output self lang f t).2))
      (concat batches).
Proof.
  intros Hrw. induction batches as [|tb batches IH]; simpl; [reflexivity |].
  by rewrite map_app, IH, (items_of_row_wise self lang f).
Qed.

Lemma final_predictions_row_wise (rt : Runtime) (self : Predictor) f
    (words : list string) (lang : string) (batch_size : nat) (w : string) :
  runtime_ok rt -> row_wise self f -> (0 < batch_size)%nat ->
  w ∈ words ->
  final_predictions rt self words lang batch_size !! w
  = Some (row_entry self lang f w).
Proof.
  intros Hrt Hrw Hbs Hin. unfold row_entry.
  destruct (decodes_empty self lang w) eqn:He.
  - by apply final_predictions_empty.
  - unfold final_predictions.
    rewrite (all_items_row_wise self lang f), u_batchify_concat by assumption.
    rewrite lookup_union_l.
    + assert (Hv : w ∈ valid_texts rt self lang words).
      { apply elem_of_valid_texts; [assumption | by split]. }
      destruct (store_fold_in self
                  (map (fun t => (t, (row_output self lang f t).1,
                                  (row_output self lang f t).2))
                       (valid_texts rt self lang words)) ∅ w)
        as (o & p & Hi & Hl).
      { rewrite map_map. cbn [item_key fst]. by rewrite map_id. }
      rewrite Hl.
      apply list_elem_of_fmap in Hi as (t & Heq & _).
      by injection Heq as <- -> ->.
    + rewrite prefilter_lookup, decide_False; [reflexivity |].
      intros [_ He']. congruence.
Qed.

Lemma call_row_wise (rt : Runtime) (self : Predictor) f
    (words : list string) (lang : string) (batch_size : nat) :
  runtime_ok rt -> row_wise self f -> (0 < batch_size)%nat ->
  call rt self words lang batch_size
  = Ok (map (row_prediction self lang f) words).
Proof.
  intros Hrt Hrw Hbs. rewrite call_eq.
  assert (Hall : forall w, w ∈ words ->
            assemble self (final_predictions rt self words lang batch_size) w
            = Ok (row_prediction self lang f w)).
  { intros w Hin. unfold assemble, row_prediction.
    rewrite (final_predictions_row_wise rt self f) by assumption.
    by destruct (row_entry self lang f w). }
  revert Hall. generalize (final_predictions rt self words lang batch_size).
  intros m. induction words as [|w words IH]; intros Hall; simpl.
  - reflexivity.
  - rewrite Hall by left. rewrite IH; [reflexivity |].
    intros w' Hw'. apply Hall. by right.
Qed.

(** ** Test doubles

    A stub tokenizer pair and two stub models, in the manner of the mocks
    the design notes call for: fixed, deterministic, small. *)

Definition is_letter (c : ascii) : bool :=
  let n := nat_of_ascii c in Nat.leb 97 n && Nat.leb n 122.

(** Ids 0, 1, 2 are pad, start and stop; a letter is its character code. *)
Definition stub_encode (sentence lang : string) : list Z :=
  map (fun c => Z.of_nat (nat_of_ascii c))
      (List.filter is_letter (String.list_ascii_of_string sentence)).

Definition stub_symbol (z : Z) : string :=
  String (ascii_of_nat (Z.to_nat z)) EmptyString.

Definition stub_text_tokenizer : Tokenizer :=
  {| encode := stub_encode;
     decode := fun sequence remove_special_tokens =>
       map stub_symbol
           (if remove_special_tokens
            then List.filter (fun z => Z.ltb 2 z) sequence else sequence);
     _get_start_index := fun _ => 1%Z;
     end_index := 2%Z |}.

Definition stub_phoneme_tokenizer : Tokenizer :=
  {| encode := stub_encode;
     decode := fun sequence remove_special_tokens =>
       map (fun z => "[" +:+ stub_symbol z +:+ "]")
           (if remove_special_tokens
            then List.filter (fun z => Z.ltb 2 z) sequence else sequence);
     _get_start_index := fun _ => 1%Z;
     end_index := 2%Z |}.

(** A row-wise model: it echoes the unpadded ids, then emits the stop id
    and one more id; every probability is 1/2. *)
Definition echo_row (ids : list Z) (start : Z) : list Z * list Q :=
  (ids ++ [2%Z; 0%Z], map (fun _ => (1 # 2)%Q) (ids ++ [2%Z; 0%Z])).

Definition echo_predictor : Predictor :=
  {| generate := fun b =>
       (map (fun r => (echo_row (take r.1.2 r.1.1) r.2).1) (rows b),
        map (fun r => (echo_row (take r.1.2 r.1.1) r.2).2) (rows b));
     text_tokenizer := stub_text_tokenizer;
     phoneme_tokenizer := stub_phoneme_tokenizer |}.

(** A deterministic model that is not row-wise: the id it generates for a
    row is the padded width of the batch (plus 64), then the stop id. *)
Definition width_predictor : Predictor :=
  {| generate := fun b =>
       (map (fun row => [(Z.of_nat (length row) + 64)%Z; 2%Z]) (text b),
        map (fun _ => [(1 # 2)%Q; (1 # 2)%Q]) (text b));
     text_tokenizer := stub_text_tokenizer;
     phoneme_tokenizer := stub_phoneme_tokenizer |}.

(** Two interpreters: one lists a set in the order of first insertion, the
    other in the reverse order. *)
Definition py_runtime : Runtime := {| list_of_set := remove_dups |}.

Definition py_runtime_rev : Runtime :=
  {| list_of_set := fun adds => reverse (remove_dups adds) |}.

Lemma py_runtime_ok : runtime_ok py_runtime.
Proof.
  intros adds. split; [apply NoDup_remove_dups | apply elem_of_remove_dups].
Qed.

Lemma py_runtime_rev_ok : runtime_ok py_runtime_rev.
Proof.
  intros adds. simpl. split.
  - rewrite reverse_Permutation. apply NoDup_remove_dups.
  - intros w. rewrite elem_of_reverse. apply elem_of_remove_dups.
Qed.

Lemma echo_row_wise : row_wise echo_predictor echo_row.
Proof. intros b. reflexivity. Qed.

Lemma width_shape : generate_shape width_predictor.
Proof. intros b. simpl. by rewrite !length_map. Qed.

(** ** Batch size (claim C5) *)

(** C5, as the code has it.  With a model that treats each row on its own
    (its output for a row depends only on the row's unpadded ids and start
    index), two positive batch sizes give the same list of predictions, and
    the call does return one. *)
Theorem batch_size_invariance (rt : Runtime) (self : Predictor)
    (f : list Z -> Z -> list Z * list Q)
    (words : list string) (lang : string) (bs1 bs2 : nat) :
  runtime_ok rt -> row_wise self f -> (0 < bs1)%nat -> (0 < bs2)%nat ->
  call rt self words lang bs1 = call rt self words lang bs2 /\
  exists out, call rt self words lang bs1 = Ok out /\
              length out = length words.
Proof.
  intros Hrt Hrw H1 H2.
  rewrite !(call_row_wise rt self f) by assumption.
  split; [reflexivity |].
  eexists. split; [reflexivity | by rewrite length_map].
Qed.

Lemma batch_size_invariance_witness :
  call py_runtime echo_predictor ["ab"; "!"; "c"; "ab"] "en_us" 1
  = call py_runtime echo_predictor ["ab"; "!"; "c"; "ab"] "en_us" 3 /\
  exists out,
    call py_runtime echo_predictor ["ab"; "!"; "c"; "ab"] "en_us" 1 = Ok out /\
    length out = length ["ab"; "!"; "c"; "ab"].
Proof.
  apply (batch_size_invariance py_runtime echo_predictor echo_row).
  - apply py_runtime_ok.
  - apply echo_row_wise.
  - lia.
  - lia.
Defined.

(** A deterministic model whose rows depend on the padded width: with
    batch size 1 the word "a" is alone in its batch (width 1), with batch
    size 2 it shares a batch with "bb" (width 2), and its prediction
    changes. *)
Lemma batch_size_changes_predictions :
  generate_shape width_predictor /\
  exists out1 out2,
    call py_runtime width_predictor ["a"; "bb"] "en_us" 1 = Ok out1 /\
    call py_runtime width_predictor ["a"; "bb"] "en_us" 2 = Ok out2 /\
    map phonemes out1 = ["[A]"; "[B]"] /\
    map phonemes out2 = ["[B]"; "[B]"] /\
    out1 <> out2.
Proof.
  split; [apply width_shape |].
  eexists. eexists.
  split; [vm_compute; reflexivity |].
  split; [vm_compute; reflexivity |].
  split; [reflexivity |]. split; [reflexivity |]. discriminate.
Qed.

(** ** Repeated runs (claim C7) *)

(** C7, as the code has it.  Two runs that iterate the set of distinct
    valid words in the same order make the same calls to the model, on the
    same batches in the same order, and return the same result. *)
Theorem call_deterministic (rt1 rt2 : Runtime) (self : Predictor)
    (words : list string) (lang : string) (batch_size : nat) :
  list_of_set rt1 (filter (fun w => decodes_empty self lang w = false) words)
  = list_of_set rt2 (filter (fun w => decodes_empty self lang w = false) words) ->
  call_log rt1 self words lang batch_size
  = call_log rt2 self words lang batch_size.
Proof.
  intros Horder. rewrite !call_log_unfold. cbv zeta.
  unfold valid_texts. rewrite !prefilter_valid, Horder. reflexivity.
Qed.

Lemma call_deterministic_witness :
  call_log py_runtime width_predictor ["a"; "bb"; "cc"; "ddd"] "en_us" 2
  = call_log (mkRuntime (fun adds => remove_dups (remove_dups adds)))
             width_predictor ["a"; "bb"; "cc"; "ddd"] "en_us" 2.
Proof.
  apply (call_deterministic py_runtime
           (mkRuntime (fun adds => remove_dups (remove_dups adds)))).
  vm_compute. reflexivity.
Defined.

(** With a row-wise model the order in which the set is iterated does not
    matter either. *)
Lemma call_order_independent (rt1 rt2 : Runtime) (self : Predictor)
    (f : list Z -> Z -> list Z * list Q)
    (words : list string) (lang : string) (batch_size : nat) :
  runtime_ok rt1 -> runtime_ok rt2 -> row_wise self f ->
  (0 < batch_size)%nat ->
  call rt1 self words lang batch_size = call rt2 self words lang batch_size.
Proof.
  intros H1 H2 Hrw Hbs.
  by rewrite !(call_row_wise _ self f).
Qed.

(** Two interpreters that iterate the same set in different orders: the
    words of equal length "bb" and "cc" change places, the chunks differ,
    and with a model that depends on the padded width the predictions of
    the same word list differ. *)
Lemma iteration_order_changes_predictions :
  runtime_ok py_runtime /\ runtime_ok py_runtime_rev /\
  map call_texts
      (call_log py_runtime width_predictor
                ["a"; "bb"; "cc"; "ddd"] "en_us" 2).1
  = [["a"; "bb"]; ["cc"; "ddd"]] /\
  map call_texts
      (call_log py_runtime_rev width_predictor
                ["a"; "bb"; "cc"; "ddd"] "en_us" 2).1
  = [["a"; "cc"]; ["bb"; "ddd"]] /\
  exists out1 out2,
    call py_runtime width_predictor ["a"; "bb"; "cc"; "ddd"] "en_us" 2
    = Ok out1 /\
    call py_runtime_rev width_predictor ["a"; "bb"; "cc"; "ddd"] "en_us" 2
    = Ok out2 /\
    map phonemes out1 = ["[B]"; "[B]"; "[C]"; "[C]"] /\
    map phonemes out2 = ["[B]"; "[C]"; "[B]"; "[C]"] /\
    out1 <> out2.
Proof.
  split; [apply py_runtime_ok |]. split; [apply py_runtime_rev_ok |].
  split; [vm_compute; reflexivity |]. split; [vm_compute; reflexivity |].
  eexists. eexists.
  split; [vm_compute; reflexivity |].
  split; [vm_compute; reflexivity |].
  split; [reflexivity |]. split; [reflexivity |]. discriminate.
Qed.

(** ** The theorems at work on the test doubles *)

Lemma call_order_preserving_witness :
  exists out,
    call py_runtime width_predictor ["ab"; "!"; "c"; "ab"] "en_us" 2 = Ok out /\
    length out = length ["ab"; "!"; "c"; "ab"] /\
    map word out = ["ab"; "!"; "c"; "ab"] /\
    forall i j, ["ab"; "!"; "c"; "ab"] !! i = ["ab"; "!"; "c"; "ab"] !! j ->
                out !! i = out !! j.
Proof.
  apply (call_order_preserving py_runtime width_predictor).
  - apply py_runtime_ok.
  - apply width_shape.
  - lia.
Defined.


Lemma predict_batch_truncates_witness :
  _predict_batch echo_predictor ["c"; "ab"] 2 "en_us" !! "c"
    = Some ([99%Z], [(1 # 2)%Q]) /\
  (2%Z ∉ [99%Z]) /\
  (drop 1 [99%Z; 2%Z; 0%Z] = [] \/
   exists rest, drop 1 [99%Z; 2%Z; 0%Z] = 2%Z :: rest) /\
  (2%Z ∉ [99%Z; 2%Z; 0%Z] ->
   take 1 [99%Z; 2%Z; 0%Z] = [99%Z; 2%Z; 0%Z] /\
   take 1 [(1 # 2)%Q; (1 # 2)%Q; (1 # 2)%Q]
   = take 3 [(1 # 2)%Q; (1 # 2)%Q; (1 # 2)%Q]).
Proof.
  apply (predict_batch_truncates echo_predictor ["c"; "ab"] 2 "en_us"
           ["c"; "ab"] 0 "c" [99%Z; 2%Z; 0%Z]
           [(1 # 2)%Q; (1 # 2)%Q; (1 # 2)%Q]).
  - lia.
  - by apply (bool_decide_unpack _).
  - left.
  - reflexivity.
  - reflexivity.
  - reflexivity.
Defined.


End Predictor.

(** * Python strings *)

Module PyStr.

#[local] Arguments String.append !_ _ / : simpl nomatch.

(** [s.replace(old, new)] for a non-empty [old]: the string is scanned from
    the left; where [old] starts, [new] is emitted and [old] skipped
    ([skip] counts the characters of a match still to be passed over). *)
Fixpoint replace_from (old new : string) (skip : nat) (s : string) : string :=
  match s with
  | EmptyString => EmptyString
  | String c s' =>
      match skip with
      | S k => replace_from old new k s'
      | O =>
          if String.prefix old s
          then new +:+ replace_from old new (String.length old - 1) s'
          else String c (replace_from old new 0 s')
      end
  end.

(** With an empty [old], Python puts [new] before every character and at
    the end. *)
Fixpoint replace_empty (new s : string) : string :=
  match s with
  | EmptyString => new
  | String c s' => new +:+ String c (replace_empty new s')
  end.

Definition replace (old new s : string) : string :=
  match old with
  | EmptyString => replace_empty new s
  | _ => replace_from old new 0 s
  end.

(** [c in s] for a character [c]. *)
Fixpoint contains (c : ascii) (s : string) : bool :=
  match s with
  | EmptyString => false
  | String c' s' => Ascii.eqb c c' || contains c s'
  end.

(** The string without its occurrences of [c]. *)
Fixpoint remove_char (c : ascii) (s : string) : string :=
  match s with
  | EmptyString => EmptyString
  | String c' s' =>
      if Ascii.eqb c c' then remove_char c s' else String c' (remove_char c s')
  end.

Lemma app_assoc (s1 s2 s3 : string) : (s1 +:+ s2) +:+ s3 = s1 +:+ s2 +:+ s3.
Proof. induction s1 as [|c s1 IH]; simpl; [reflexivity | by rewrite IH]. Qed.

Lemma app_nil_r (s : string) : s +:+ "" = s.
Proof. induction s as [|c s IH]; simpl; [reflexivity | by rewrite IH]. Qed.

Lemma prefix_char (c c' : ascii) (s : string) :
  String.prefix (String c EmptyString) (String c' s) = Ascii.eqb c c'.
Proof.
  simpl. destruct (ascii_dec c c') as [->|Hne].
  - rewrite Ascii.eqb_refl. by destruct s.
  - symmetry. by apply Ascii.eqb_neq.
Qed.

(** Replacing one character by nothing removes the character. *)
Lemma replace_char_empty (c : ascii) (s : string) :
  replace (String c EmptyString) "" s = remove_char c s.
Proof.
  unfold replace. induction s as [|c' s IH]; [reflexivity |].
  cbn [replace_from remove_char]. rewrite prefix_char.
  destruct (Ascii.eqb c c'); simpl; by rewrite IH.
Qed.

Lemma contains_remove_char (c : ascii) (s : string) :
  contains c (remove_char c s) = false.
Proof.
  induction s as [|c' s IH]; simpl; [reflexivity |].
  destruct (Ascii.eqb c c') eqn:Hc; simpl; [exact IH |].
  by rewrite Hc.
Qed.

Lemma contains_remove_other (c d : ascii) (s : string) :
  contains d s = false -> contains d (remove_char c s) = false.
Proof.
  induction s as [|c' s IH]; simpl; [reflexivity |].
  intros [Hd Hs]%orb_false_elim.
  destruct (Ascii.eqb c c'); simpl; [by apply IH |].
  rewrite Hd. by apply IH.
Qed.

Lemma remove_char_absent (c : ascii) (s : string) :
  contains c s = false -> remove_char c s = s.
Proof.
  induction s as [|c' s IH]; simpl; [reflexivity |].
  intros [Hc Hs]%orb_false_elim. rewrite Hc. by rewrite IH.
Qed.

Lemma remove_char_app (c : ascii) (s1 s2 : string) :
  remove_char c (s1 +:+ s2) = remove_char c s1 +:+ remove_char c s2.
Proof.
  induction s1 as [|c' s1 IH]; simpl; [reflexivity |].
  destruct (Ascii.eqb c c'); simpl; by rewrite IH.
Qed.

Lemma contains_app (c : ascii) (s1 s2 : string) :
  contains c (s1 +:+ s2) = contains c s1 || contains c s2.
Proof.
  induction s1 as [|c' s1 IH]; simpl; [reflexivity |].
  by rewrite IH, orb_assoc.
Qed.

End PyStr.

(** * Infer.__call__: infer.py *)

Module Infer.
Import PyStr.

#[local] Arguments String.append !_ _ / : simpl nomatch.

(** The phonemizer (models/dp/phonemizer.py) is external to [infer.py]:
    [phonemise_list(words, lang, batch_size).phonemes]. *)
Record Phonemizer := mkPhonemizer {
  phonemise_list : list string -> string -> nat -> list string
}.

(** [self] of [Infer] (infer.py:16-18). *)
Record Infer := mkInfer {
  model : Phonemizer;
  lang : string;
  batch_size : nat
}.

(** infer.py:28, for one string. *)
Definition clean (r : string) : string :=
  replace "]" "" (replace "[" "" (replace "][" " " r)).

(** [Infer.__call__] (infer.py:20-29). *)
Definition call (self : Infer) (words : list string) : list string :=
  let res := phonemise_list (model self) words (lang self) (batch_size self) in
  map clean res.

(** A phoneme string as the predictor joins it: every token in brackets. *)
Definition bracketed (tokens : list string) : string :=
  String.concat "" (map (fun t => "[" +:+ t +:+ "]") tokens).

(** The tokens, each preceded by a space. *)
Fixpoint spaced (tokens : list string) : string :=
  match tokens with
  | [] => ""
  | t :: tokens' => " " +:+ t +:+ spaced tokens'
  end.

Definition bracket_free (t : string) : Prop :=
  contains "[" t = false /\ contains "]" t = false.

Lemma concat_empty_cons (x : string) (l : list string) :
  String.concat "" (x :: l) = x +:+ String.concat "" l.
Proof. destruct l; simpl; [by rewrite app_nil_r | reflexivity]. Qed.

Lemma concat_space_cons (t : string) (ts : list string) :
  String.concat " " (t :: ts) = t +:+ spaced ts.
Proof.
  revert t. induction ts as [|t' ts IH]; intros t.
  - simpl. by rewrite app_nil_r.
  - change (String.concat " " (t :: t' :: ts))
      with (t +:+ " " +:+ String.concat " " (t' :: ts)).
    by rewrite IH.
Qed.

Lemma prefix_app (s1 s2 : string) : String.prefix s1 (s1 +:+ s2) = true.
Proof.
  induction s1 as [|c s1 IH]; simpl.
  - by destruct s2.
  - destruct (ascii_dec c c); [exact IH | congruence].
Qed.

Lemma replace_boundary_skip (t rest : string) :
  contains "]" t = false ->
  replace_from "][" " " 0 (t +:+ rest) = t +:+ replace_from "][" " " 0 rest.
Proof.
  induction t as [|c t IH]; [reflexivity |].
  cbn [contains]. intros [Hc Ht]%orb_false_elim.
  change (String c t +:+ rest) with (String c (t +:+ rest)).
  cbn [replace_from String.prefix].
  destruct (ascii_dec "]" c) as [<-|_]; [discriminate Hc |].
  rewrite IH by assumption. reflexivity.
Qed.

Lemma replace_boundary_hit (rest : string) :
  replace_from "][" " " 0 ("][" +:+ rest)
  = " " +:+ replace_from "][" " " 0 rest.
Proof.
  change ("][" +:+ rest) with (String "]" (String "[" rest)).
  cbn [replace_from].
  change (String "]" (String "[" rest)) with ("][" +:+ rest).
  rewrite prefix_app. reflexivity.
Qed.

(** After the first replacement the tokens are separated by single spaces
    and one closing bracket remains at the end. *)
Lemma replace_boundaries (t : string) (ts : list string) :
  contains "]" t = false ->
  (forall t', t' ∈ ts -> bracket_free t') ->
  replace_from "][" " " 0 (t +:+ "]" +:+ bracketed ts)
  = t +:+ spaced ts +:+ "]".
Proof.
  revert t. induction ts as [|t' ts IH]; intros t Ht Hts.
  - rewrite replace_boundary_skip by assumption. reflexivity.
  - unfold bracketed. rewrite map_cons, concat_empty_cons.
    fold (bracketed ts).
    rewrite replace_boundary_skip by assumption.
    change ("]" +:+ ("[" +:+ t' +:+ "]") +:+ bracketed ts)
      with ("][" +:+ (t' +:+ "]") +:+ bracketed ts).
    rewrite replace_boundary_hit, app_assoc, IH.
    + cbn [spaced]. by rewrite !app_assoc.
    + apply Hts. by left.
    + intros t'' Hin. apply Hts. by right.
Qed.

Lemma spaced_bracket_free (ts : list string) :
  (forall t, t ∈ ts -> bracket_free t) -> bracket_free (spaced ts).
Proof.
  induction ts as [|t ts IH]; intros Hts; [by split |].
  destruct (Hts t) as [Ho Hc]; [by left |].
  destruct IH as [IHo IHc]; [intros t' Hin; apply Hts; by right |].
  cbn [spaced]. unfold bracket_free.
  rewrite !contains_app, Ho, Hc, IHo, IHc. by split.
Qed.

Lemma clean_bracketed (ts : list string) :
  (forall t, t ∈ ts -> bracket_free t) ->
  clean (bracketed ts) = String.concat " " ts.
Proof.
  destruct ts as [|t ts]; intros Hts; [reflexivity |].
  destruct (Hts t) as [Ho Hc]; [by left |].
  assert (Hrest : forall t', t' ∈ ts -> bracket_free t').
  { intros t' Hin. apply Hts. by right. }
  destruct (spaced_bracket_free ts Hrest) as [Hso Hsc].
  unfold clean. rewrite !replace_char_empty.
  unfold replace, bracketed. rewrite map_cons, concat_empty_cons.
  fold (bracketed ts). rewrite !app_assoc.
  change ("[" +:+ t +:+ "]" +:+ bracketed ts)
    with (String "[" (t +:+ "]" +:+ bracketed ts)).
  cbn [replace_from String.prefix].
  destruct (ascii_dec "]" "[") as [Habs|_]; [discriminate Habs |].
  rewrite replace_boundaries by assumption.
  cbn [remove_char]. rewrite Ascii.eqb_refl.
  rewrite !remove_char_app.
  rewrite (remove_char_absent "[" t), (remove_char_absent "[" (spaced ts))
    by assumption.
  cbn [remove_char]. replace (Ascii.eqb "[" "]") with false by reflexivity.
  rewrite (remove_char_absent "]" t), (remove_char_absent "]" (spaced ts))
    by assumption.
  change (remove_char "]" "]") with "". rewrite app_nil_r.
  symmetry. apply concat_space_cons.
Qed.

Lemma clean_no_brackets (r : string) : bracket_free (clean r).
Proof.
  unfold clean, bracket_free. rewrite !replace_char_empty. split.
  - apply contains_remove_other, contains_remove_char.
  - apply contains_remove_char.
Qed.

(** C10.  When the phonemizer returns one phoneme string per word,
    [Infer.__call__] returns a list (not a mapping) of the length of
    [words] whose i-th string is the clean-up of the i-th phoneme string;
    no returned string contains '[' or ']'; and a string of bracketed
    tokens becomes the tokens separated by single spaces. *)
Theorem call_strips_brackets (self : Infer) (words : list string) :
  length (phonemise_list (model self) words (lang self) (batch_size self))
  = length words ->
  length (call self words) = length words /\
  (forall i w, words !! i = Some w ->
     exists r,
       phonemise_list (model self) words (lang self) (batch_size self) !! i
       = Some r /\
       call self words !! i = Some (clean r)) /\
  (forall r, r ∈ call self words ->
     contains "[" r = false /\ contains "]" r = false) /\
  (forall ts, (forall t, t ∈ ts -> bracket_free t) ->
     clean (bracketed ts) = String.concat " " ts).
Proof.
  intros Hlen. unfold call. split; [by rewrite length_map |]. split.
  - intros i w Hw.
    destruct (lookup_lt_is_Some_2
                (phonemise_list (model self) words (lang self) (batch_size self))
                i) as [r Hr].
    { rewrite Hlen. eapply lookup_lt_Some. exact Hw. }
    exists r. split; [exact Hr |].
    change (map clean ?l) with (clean <$> l).
    by rewrite list_lookup_fmap, Hr.
  - split; [| apply clean_bracketed].
    intros r (r0 & -> & _)%list_elem_of_fmap. apply clean_no_brackets.
Qed.

(** A phonemizer stub: every word is spelt out, one bracketed token per
    character. *)
Definition spell (w : string) : string :=
  bracketed (map (fun c => String c EmptyString) (String.list_ascii_of_string w)).

Definition spelling_infer : Infer :=
  {| model := {| phonemise_list := fun words _ _ => map spell words |};
     lang := "en_us";
     batch_size := 32 |}.

Lemma call_strips_brackets_witness :
  call spelling_infer ["hi"; "you"] = ["h i"; "y o u"] /\
  length (call spelling_infer ["hi"; "you"]) = length ["hi"; "you"] /\
  (forall r, r ∈ call spelling_infer ["hi"; "you"] ->
     contains "[" r = false /\ contains "]" r = false).
Proof.
  split; [reflexivity |].
  destruct (call_strips_brackets spelling_infer ["hi"; "you"])
    as (Hlen & _ & Hfree & _).
  - reflexivity.
  - split; [exact Hlen | exact Hfree].
Defined.

End Infer.

(** * Checkpoint provisioning: data/remote.py and Infer.__init__ *)

Module Remote.

(** The exceptions that can leave [Infer.__init__]. *)
Inductive error :=
| ConnectionError          (* requests.get could not reach the server *)
| HTTPError                (* r.raise_for_status() *)
| FileNotFoundError        (* open(file, 'rb') in get_checksum *)
| RuntimeError (msg : string)
| LoadError.               (* Phonemizer.from_checkpoint failed *)

(** A checkpoint file, as the code observes it: [get_checksum] reads its
    SHA-256 hex digest. *)
Record Checkpoint := mkCheckpoint {
  hexdigest : string
}.

(** The machine: the file [data/model.pt], if it exists, and the warnings
    issued so far. *)
Record State := mkState {
  local_model : option Checkpoint;
  warnings : list string
}.

(** What is outside the process: the answers of the server to the two
    requests, and the loader of checkpoints
    ([Phonemizer.from_checkpoint]). *)
Record Env := mkEnv {
  ptr_text : result error string;         (* requests.get(_model_ptr).text *)
  model_download : result error Checkpoint; (* requests.get(_model_url) *)
  from_checkpoint : Checkpoint -> result error Infer.Phonemizer
}.

Definition warn (msg : string) (st : State) : State :=
  {| local_model := local_model st; warnings := warnings st ++ [msg] |}.

Definition no_checksum_warning : string :=
  "Could not retrieve remote model checksum".

Definition mismatch_warning : string :=
  "Local model checkpoint did not match latest remote checksum. " +:+
  "You can use Aquila_Resolve.download() to download the latest model.".

Definition download_error : string :=
  "Model could not be downloaded. Visit " +:+
  "https://huggingface.co/ionite/Aquila-Resolve/blob/main/model.pt " +:+
  "to download the model checkpoint manually and place it within the " +:+
  "Aquila_Resolve/data/ folder.".

(** [s[n:]] *)
Fixpoint drop_chars (n : nat) (s : string) : string :=
  match n, s with
  | S n', String _ s' => drop_chars n' s'
  | _, _ => s
  end.

(** [get_checksum(_model)] (remote.py:54-61). *)
Definition get_checksum (st : State) : result error string :=
  match local_model st with
  | None => Raise FileNotFoundError
  | Some file => Ok (hexdigest file)
  end.

(** [check_model] (remote.py:12-20).  [text.split()] splits at white
    space. *)
Definition check_model (env : Env) (st : State) : result error (bool * State) :=
  bind (ptr_text env) (fun text =>
  let result := String.words text in
  if Nat.ltb (length result) 6
     || negb (String.prefix "sha256:" (default "" (result !! 3%nat)))
  then Ok (false, warn no_checksum_warning st)
  else
    let remote_sha256 := drop_chars 7 (default "" (result !! 3%nat)) in
    bind (get_checksum st) (fun actual_sha256 =>
    Ok (String.eqb remote_sha256 actual_sha256, st))).

(** The tail of [download] (remote.py:30-35): fetch, write, report. *)
Definition fetch (env : Env) (st : State) : result error (bool * State) :=
  bind (model_download env) (fun file =>
  let st' := {| local_model := Some file; warnings := warnings st |} in
  Ok (bool_decide (is_Some (local_model st')), st')).

(** [download] (remote.py:23-35). *)
Definition download (update : bool) (env : Env) (st : State)
  : result error (bool * State) :=
  let exists_ := bool_decide (is_Some (local_model st)) in
  if negb update && exists_ then Ok (true, st)
  else if update && exists_ then
    bind (check_model env st) (fun '(matches, st1) =>
    if matches then Ok (true, st1) else fetch env st1)
  else fetch env st.

(** [ensure_download] (remote.py:38-44). *)
Definition ensure_download (env : Env) (st : State) : result error State :=
  bind (download false env st) (fun '(ok, st1) =>
  if negb ok then Raise (RuntimeError download_error) else Ok st1).

(** [check_updates] (remote.py:47-51). *)
Definition check_updates (env : Env) (st : State) : result error State :=
  bind (check_model env st) (fun '(matches, st1) =>
  if negb matches then Ok (warn mismatch_warning st1) else Ok st1).

(** The file at [checkpoint_path], for [Phonemizer.from_checkpoint]. *)
Definition get_checkpoint (st : State) : result error Checkpoint :=
  match local_model st with
  | None => Raise FileNotFoundError
  | Some file => Ok file
  end.

(** [Infer.__init__] (infer.py:12-18). *)
Definition init (env : Env) (st : State) : result error (Infer.Infer * State) :=
  bind (ensure_download env st) (fun st1 =>
  bind (check_updates env st1) (fun st2 =>
  bind (get_checkpoint st2) (fun file =>
  bind (from_checkpoint env file) (fun model =>
  Ok ({| Infer.model := model; Infer.lang := "en_us"; Infer.batch_size := 32 |},
      st2))))).



Lemma ensure_download_present (env : Env) (st : State) file :
  local_model st = Some file -> ensure_download env st = Ok st.
Proof.
  intros Hfile. unfold ensure_download, download. rewrite Hfile.
  rewrite bool_decide_true by (by eexists). reflexivity.
Qed.


(** A Git LFS pointer announcing the digest [sha]. *)
Definition lfs_pointer (sha : string) : string :=
  "version https://git-lfs.github.com/spec/v1" +:+ String "010" (
  "oid sha256:" +:+ sha +:+ String "010" (
  "size 66577483" +:+ String "010" "")).

(** A server that is up, announces the digest "bb22" and serves the
    checkpoint with that digest; every checkpoint file loads. *)
Definition server_up : Env :=
  {| ptr_text := Ok (lfs_pointer "bb22");
     model_download := Ok (mkCheckpoint "bb22");
     from_checkpoint := fun _ => Ok (Infer.model Infer.spelling_infer) |}.




End Remote.

(** * The dictionary reader: tests/test_dict_reader.py *)

Module Lexicon.

(** Word -> ordered variants, each variant a sequence of phonemes
    ([dr.dict] in the tests: a dict of lists of lists of strings). *)
Abbreviation Dictionary := (gmap string (list (list string))).


(** The digits of a variant number up to the closing parenthesis, which
    must end the word. *)
Fixpoint digits_close (seen : bool) (acc : nat) (s : string) : option nat :=
  match s with
  | EmptyString => None
  | String c s' =>
      match Ascii.is_nat c with
      | Some d => digits_close true (10 * acc + d) s'
      | None =>
          if seen && Ascii.eqb c ")" && String.eqb s' "" then Some acc else None
      end
  end.










Lemma digits_close_length (seen : bool) (acc : nat) (s : string) (n : nat) :
  digits_close seen acc s = Some n -> (0 < String.length s)%nat.
Proof. destruct s; simpl; [discriminate | lia]. Qed.






End Lexicon.

(** * The text filter: tests/test_filter.py *)

Module Filter.

(** Text is a sequence of code points below 256 (Latin-1), one [ascii]
    each, so that an accented letter is one character. *)

















(** ** Letter case *)









End Filter.

(** * More on the predictor: what reaches the model, and what comes back *)

From Stdlib Require Import Sorted.

Module PredictorFacts.
Import Predictor.

(** ** The order in which words reach the model (predictor.py:62) *)

Definition len_le (x y : string) : Prop :=
  (String.length x <= String.length y)%nat.

Lemma insert_by_len_Forall (P : string -> Prop) (x : string) (l : list string) :
  P x -> Forall P l -> Forall P (insert_by_len x l).
Proof.
  intros Hx Hl. rewrite insert_by_len_perm. by constructor.
Qed.

Lemma insert_by_len_sorted (x : string) (l : list string) :
  StronglySorted len_le l -> StronglySorted len_le (insert_by_len x l).
Proof.
  induction 1 as [|y l Hl IH Hy]; simpl.
  - repeat constructor.
  - destruct (Nat.leb_spec (String.length x) (String.length y)) as [Hle|Hgt].
    + constructor; [by constructor |].
      constructor; [exact Hle |].
      eapply Forall_impl; [exact Hy |].
      intros z Hz. unfold len_le in *. lia.
    + constructor; [exact IH |].
      apply insert_by_len_Forall; [unfold len_le; lia | exact Hy].
Qed.

Lemma sorted_by_len_sorted (l : list string) :
  StronglySorted len_le (sorted_by_len l).
Proof.
  induction l as [|x l IH]; simpl; [constructor |].
  by apply insert_by_len_sorted.
Qed.

(** Words of one length keep the order they had before the sort. *)
Lemma insert_by_len_stable (k : nat) (x : string) (l : list string) :
  StronglySorted len_le l ->
  List.filter (fun w => Nat.eqb (String.length w) k) (insert_by_len x l)
  = List.filter (fun w => Nat.eqb (String.length w) k) (x :: l).
Proof.
  induction 1 as [|y l Hl IH Hy]; [reflexivity |].
  cbn [insert_by_len].
  destruct (Nat.leb_spec (String.length x) (String.length y)) as [Hle|Hgt];
    [reflexivity |].
  cbn [List.filter] in *. rewrite IH.
  destruct (Nat.eqb_spec (String.length x) k) as [Hx|Hx];
    destruct (Nat.eqb_spec (String.length y) k) as [Hy'|Hy'];
    try reflexivity.
  lia.
Qed.

Lemma sorted_by_len_stable (k : nat) (l : list string) :
  List.filter (fun w => Nat.eqb (String.length w) k) (sorted_by_len l)
  = List.filter (fun w => Nat.eqb (String.length w) k) l.
Proof.
  induction l as [|x l IH]; [reflexivity |].
  cbn [sorted_by_len foldr]. fold (sorted_by_len l).
  rewrite insert_by_len_stable by apply sorted_by_len_sorted.
  cbn [List.filter]. by rewrite IH.
Qed.

Lemma call_log_texts (rt : Runtime) (self : Predictor) (words : list string)
    (lang : string) (batch_size : nat) :
  (0 < batch_size)%nat ->
  concat (map call_texts (call_log rt self words lang batch_size).1)
  = valid_texts rt self lang words.
Proof.
  intros Hbs. rewrite call_log_unfold. cbn [fst].
  rewrite map_map. cbn [call_texts]. rewrite map_id.
  by apply u_batchify_concat.
Qed.

(** X1.  The words of all the calls to the model, in the order of the
    calls: every input word that decodes to something is there exactly
    once, however often it occurs in the input, and the words come in
    order of non-decreasing length, words of one length in the order in
    which the set of valid words is listed. *)
Theorem model_sees_each_valid_word_once (rt : Runtime) (self : Predictor)
    (words : list string) (lang : string) (batch_size : nat) :
  runtime_ok rt -> (0 < batch_size)%nat ->
  let sent :=
    concat (map call_texts (call_log rt self words lang batch_size).1) in
  NoDup sent /\
  (forall w, w ∈ sent <-> w ∈ words /\ decodes_empty self lang w = false) /\
  StronglySorted len_le sent /\
  (forall k,
     List.filter (fun w => Nat.eqb (String.length w) k) sent
     = List.filter (fun w => Nat.eqb (String.length w) k)
         (list_of_set rt
            (filter (fun w => decodes_empty self lang w = false) words))).
Proof.
  intros Hrt Hbs sent. subst sent. rewrite call_log_texts by assumption.
  split; [by apply valid_texts_NoDup |].
  split; [intros w; by apply elem_of_valid_texts |].
  split; [apply sorted_by_len_sorted |].
  intros k. unfold valid_texts. rewrite prefilter_valid.
  apply sorted_by_len_stable.
Qed.

Lemma model_sees_each_valid_word_once_witness :
  let sent :=
    concat (map call_texts
              (call_log py_runtime echo_predictor
                        ["ccc"; "!"; "a"; "bb"; "ccc"; "dd"] "en_us" 2).1) in
  sent = ["a"; "bb"; "dd"; "ccc"] /\
  NoDup sent /\
  (forall w, w ∈ sent <->
     w ∈ ["ccc"; "!"; "a"; "bb"; "ccc"; "dd"] /\
     decodes_empty echo_predictor "en_us" w = false) /\
  StronglySorted len_le sent.
Proof.
  intros sent. split; [vm_compute; reflexivity |].
  destruct (model_sees_each_valid_word_once py_runtime echo_predictor
              ["ccc"; "!"; "a"; "bb"; "ccc"; "dd"] "en_us" 2)
    as (Hnd & Hin & Hsorted & _).
  - apply py_runtime_ok.
  - lia.
  - split; [exact Hnd |]. split; [exact Hin | exact Hsorted].
Defined.

(** ** The batch handed to the model (predictor.py:95-110) *)

Lemma length_le_max_len (sequences : list (list Z)) (e : list Z) :
  e ∈ sequences -> (length e <= max_len sequences)%nat.
Proof.
  induction sequences as [|s sequences IH]; simpl.
  - intros H. by apply elem_of_nil in H.
  - intros [->|Hin]%elem_of_cons; [lia |]. specialize (IH Hin). lia.
Qed.

(** X2.  The batch of a chunk is rectangular: one row, one true length and
    one start index per word; every row has the width of the longest
    encoding of the chunk; a row is the encoding of its word followed by
    pad ids 0 only, so that its true length gives the encoding back. *)
Theorem make_batch_rectangular (self : Predictor) (lang : string)
    (text_batch : list string) :
  let b := make_batch self lang text_batch in
  let enc := fun w => encode (text_tokenizer self) w lang in
  let width := max_len (map enc text_batch) in
  length (text b) = length text_batch /\
  length (text_len b) = length text_batch /\
  length (start_index b) = length text_batch /\
  forall i w, text_batch !! i = Some w ->
    exists row,
      text b !! i = Some row /\
      length row = width /\
      row = enc w ++ replicate (width - length (enc w)) 0%Z /\
      take (length (enc w)) row = enc w /\
      text_len b !! i = Some (length (enc w)) /\
      start_index b !! i
        = Some (_get_start_index (phoneme_tokenizer self) lang).
Proof.
  intros b enc width. subst b.
  unfold make_batch, pad_sequence. cbn [text text_len start_index].
  fold enc. fold width.
  rewrite !length_map, length_replicate.
  repeat split; try reflexivity.
  intros i w Hw.
  exists (enc w ++ replicate (width - length (enc w)) 0%Z).
  assert (Hle : (length (enc w) <= width)%nat).
  { apply length_le_max_len. apply (list_elem_of_fmap_2 enc).
    eapply list_elem_of_lookup_2. exact Hw. }
  split; [| split; [| split; [| split; [| split]]]].
  - change (map ?f ?l) with (f <$> l).
    rewrite !list_lookup_fmap, Hw. reflexivity.
  - rewrite length_app, length_replicate. lia.
  - reflexivity.
  - by rewrite take_app_length.
  - change (map ?f ?l) with (f <$> l).
    rewrite !list_lookup_fmap, Hw. reflexivity.
  - apply lookup_replicate_2. eapply lookup_lt_Some. exact Hw.
Qed.

(** ** The dictionary [_predict_batch] returns (predictor.py:83-118) *)

Lemma all_items_keys_subset (self : Predictor) (lang : string)
    (batches : list (list string)) (w : string) :
  w ∈ map item_key (concat (map (items_of self lang) batches)) ->
  w ∈ concat batches.
Proof.
  intros Hin. eapply elem_of_sublist; [exact Hin |].
  apply all_items_keys_sublist.
Qed.

(** X3.  [_predict_batch] never has a key that is not one of [texts]; and
    when the model returns a row of ids and a row of probabilities for
    every row of its batch, every one of [texts] is a key. *)
Theorem predict_batch_keys (self : Predictor) (texts : list string)
    (batch_size : nat) (language : string) (w : string) :
  (0 < batch_size)%nat ->
  (is_Some (_predict_batch self texts batch_size language !! w) -> w ∈ texts) /\
  (generate_shape self -> w ∈ texts ->
   is_Some (_predict_batch self texts batch_size language !! w)).
Proof.
  intros Hbs. rewrite predict_batch_eq. split.
  - intros Hsome.
    destruct (decide (w ∈ map item_key
                (concat (map (items_of self language)
                             (u_batchify texts batch_size))))) as [Hk|Hk].
    + apply all_items_keys_subset in Hk.
      by rewrite u_batchify_concat in Hk.
    + rewrite store_fold_notin in Hsome by assumption.
      rewrite lookup_empty in Hsome. by destruct Hsome.
  - intros Hshape Hin.
    destruct (store_fold_in self
                (concat (map (items_of self language)
                             (u_batchify texts batch_size))) ∅ w)
      as (o & p & _ & Hl).
    + rewrite all_items_keys, u_batchify_concat by assumption. exact Hin.
    + rewrite Hl. by eexists.
Qed.

Lemma predict_batch_keys_witness :
  is_Some (_predict_batch width_predictor ["a"; "bb"; "c"] 2 "en_us" !! "bb") /\
  ~ is_Some (_predict_batch width_predictor ["a"; "bb"; "c"] 2 "en_us" !! "zz").
Proof.
  destruct (predict_batch_keys width_predictor ["a"; "bb"; "c"] 2 "en_us" "bb")
    as [_ Hin]; [lia |].
  destruct (predict_batch_keys width_predictor ["a"; "bb"; "c"] 2 "en_us" "zz")
    as [Hout _]; [lia |].
  split.
  - apply Hin; [apply width_shape | right; left].
  - intros Hzz. apply Hout in Hzz. apply list_elem_of_In in Hzz.
    destruct Hzz as [Hzz|[Hzz|[Hzz|[]]]]; discriminate Hzz.
Defined.

(** X6.  When every row of ids the model returns has the length of its row
    of probabilities, every entry [_predict_batch] stores has as many
    probabilities as ids. *)
Theorem predict_batch_aligned (self : Predictor) (texts : list string)
    (batch_size : nat) (language : string)
    (w : string) (tokens : list Z) (probs : list Q) :
  (forall b i o p,
     (generate self b).1 !! i = Some o -> (generate self b).2 !! i = Some p ->
     length o = length p) ->
  _predict_batch self texts batch_size language !! w = Some (tokens, probs) ->
  length tokens = length probs.
Proof.
  intros Hrows. rewrite predict_batch_eq. intros Hl.
  destruct (decide (w ∈ map item_key
              (concat (map (items_of self language)
                           (u_batchify texts batch_size))))) as [Hk|Hk].
  - destruct (store_fold_in self _ ∅ w Hk) as (o & p & Hin & Hl').
    rewrite Hl in Hl'. injection Hl' as -> ->.
    apply list_elem_of_In, in_concat in Hin as (items & Hitems & Hin).
    apply list_elem_of_In, list_elem_of_fmap in Hitems as (tb & -> & _).
    apply list_elem_of_In in Hin. unfold items_of in Hin.
    pose proof (Hrows (make_batch self language tb)) as Hb.
    destruct (generate self (make_batch self language tb)) as [outs prs].
    apply zip3_elem_of in Hin as (i & _ & Ho & Hp).
    rewrite !length_take. rewrite (Hb i o p Ho Hp). reflexivity.
  - rewrite store_fold_notin in Hl by assumption.
    by rewrite lookup_empty in Hl.
Qed.

Lemma predict_batch_aligned_witness :
  exists tokens probs,
    _predict_batch echo_predictor ["c"; "ab"] 2 "en_us" !! "c"
    = Some (tokens, probs) /\
    length tokens = length probs.
Proof.
  exists [99%Z], [(1 # 2)%Q].
  assert (Hl : _predict_batch echo_predictor ["c"; "ab"] 2 "en_us" !! "c"
               = Some ([99%Z], [(1 # 2)%Q])) by (vm_compute; reflexivity).
  split; [exact Hl |].
  apply (predict_batch_aligned echo_predictor ["c"; "ab"] 2 "en_us" "c");
    [| exact Hl].
  intros b i o p. simpl.
  change (map ?f ?l) with (f <$> l). rewrite !list_lookup_fmap.
  destruct (rows b !! i) as [r|]; simpl; [| discriminate].
  intros [= <-] [= <-]. by rewrite length_map.
Defined.

(** ** When the model returns nothing, and when nothing reaches it *)

Lemma mapM_first_error {E A B} (f : A -> result E B) (pre post : list A)
    (a : A) (e : E) :
  (forall x, x ∈ pre -> exists b, f x = Ok b) ->
  f a = Raise e ->
  mapM f (pre ++ a :: post) = Raise e.
Proof.
  intros Hpre Ha. induction pre as [|x pre IH]; simpl.
  - by rewrite Ha.
  - destruct (Hpre x) as [b ->]; [by left |]. simpl.
    rewrite IH; [reflexivity |]. intros y Hy. apply Hpre. by right.
Qed.

Lemma zip3_no_rows {A B C} (la : list A) (lc : list C) :
  zip3 la (@nil B) lc = [].
Proof. by destruct la. Qed.

(** X4.  If the model returns no row at all, [__call__] raises [KeyError]
    on the first input word that decodes to something; the words before
    it, which decode to nothing, do not stop it. *)
Theorem call_key_error (rt : Runtime) (self : Predictor)
    (pre post : list string) (w lang : string) (batch_size : nat) :
  (forall b, (generate self b).1 = []) ->
  (forall x, x ∈ pre -> decodes_empty self lang x = true) ->
  decodes_empty self lang w = false ->
  call rt self (pre ++ w :: post) lang batch_size = Raise (KeyError w).
Proof.
  intros Hgen Hpre Hw. rewrite call_eq.
  assert (Hitems : forall batches,
            concat (map (items_of self lang) batches) = []).
  { intros batches. induction batches as [|tb batches IH]; [reflexivity |].
    simpl. rewrite IH, app_nil_r. unfold items_of.
    pose proof (Hgen (make_batch self lang tb)) as Hb.
    destruct (generate self (make_batch self lang tb)) as [outs probs].
    simpl in Hb. subst outs. apply zip3_no_rows. }
  assert (Hfinal : forall x,
            final_predictions rt self (pre ++ w :: post) lang batch_size !! x
            = (prefilter self lang (pre ++ w :: post)).1 !! x).
  { intros x. unfold final_predictions. rewrite Hitems. cbn [foldl].
    by rewrite lookup_union_r by apply lookup_empty. }
  apply mapM_first_error.
  - intros x Hx. unfold assemble. rewrite Hfinal, prefilter_lookup.
    rewrite decide_True; [by eexists |].
    split; [apply elem_of_app; by left | by apply Hpre].
  - unfold assemble. rewrite Hfinal, prefilter_lookup.
    rewrite decide_False; [reflexivity |]. intros [_ He]. congruence.
Qed.

(** A model that returns no row. *)
Definition silent_predictor : Predictor :=
  {| generate := fun _ => ([], []);
     text_tokenizer := stub_text_tokenizer;
     phoneme_tokenizer := stub_phoneme_tokenizer |}.

Lemma call_key_error_witness :
  call py_runtime silent_predictor (["!"; "?!"] ++ "ab" :: ["c"]) "en_us" 8
  = Raise (KeyError "ab").
Proof.
  apply (call_key_error py_runtime silent_predictor ["!"; "?!"] ["c"] "ab").
  - reflexivity.
  - intros x Hx. apply list_elem_of_In in Hx.
    destruct Hx as [<-|[<-|[]]]; reflexivity.
  - reflexivity.
Defined.




(** ** A word's prediction and the rest of the list *)

(** X17.  With a model that treats each row on its own, the prediction of
    a word does not depend on the list it comes in: in two calls, on any
    two word lists and with any two positive batch sizes and set orders,
    a word common to both lists gets the same prediction. *)
Theorem prediction_independent_of_context (rt1 rt2 : Runtime)
    (self : Predictor) (f : list Z -> Z -> list Z * list Q)
    (words1 words2 : list string) (lang : string) (bs1 bs2 : nat)
    (out1 out2 : list Prediction) (i j : nat) (w : string) :
  runtime_ok rt1 -> runtime_ok rt2 -> row_wise self f ->
  (0 < bs1)%nat -> (0 < bs2)%nat ->
  call rt1 self words1 lang bs1 = Ok out1 ->
  call rt2 self words2 lang bs2 = Ok out2 ->
  words1 !! i = Some w -> words2 !! j = Some w ->
  exists p, out1 !! i = Some p /\ out2 !! j = Some p.
Proof.
  intros Hrt1 Hrt2 Hrw Hbs1 Hbs2 Hc1 Hc2 Hi Hj.
  rewrite (call_row_wise rt1 self f) in Hc1 by assumption.
  rewrite (call_row_wise rt2 self f) in Hc2 by assumption.
  injection Hc1 as <-. injection Hc2 as <-.
  exists (row_prediction self lang f w).
  change (map ?g ?l) with (g <$> l).
  by rewrite !list_lookup_fmap, Hi, Hj.
Qed.

Lemma prediction_independent_of_context_witness :
  exists p,
    [ {| word := "ab"; phonemes := "[a][b]"; phoneme_tokens := ["[a]"; "[b]"];
         confidence := (1 # 4)%Q; token_probs := [(1 # 2)%Q; (1 # 2)%Q] |} ]
      !! 0%nat = Some p /\
    [ {| word := "c"; phonemes := "[c]"; phoneme_tokens := ["[c]"];
         confidence := (1 # 2)%Q; token_probs := [(1 # 2)%Q] |};
      {| word := "ab"; phonemes := "[a][b]"; phoneme_tokens := ["[a]"; "[b]"];
         confidence := (1 # 4)%Q; token_probs := [(1 # 2)%Q; (1 # 2)%Q] |} ]
      !! 1%nat = Some p.
Proof.
  apply (prediction_independent_of_context py_runtime py_runtime_rev
           echo_predictor echo_row ["ab"] ["c"; "ab"] "en_us" 1 2 _ _ 0 1 "ab").
  - apply py_runtime_ok.
  - apply py_runtime_rev_ok.
  - apply echo_row_wise.
  - lia.
  - lia.
  - vm_compute. reflexivity.
  - vm_compute. reflexivity.
  - reflexivity.
  - reflexivity.
Defined.

End PredictorFacts.

(** * predict_words and predict_word: predictor.py:120-199 *)

Module PredictWords.
Import Predictor.

#[local] Arguments String.append !_ _ / : simpl nomatch.

(** [phoneme[1:-1]]: the string without its first and its last
    character. *)
Fixpoint drop_last (s : string) : string :=
  match s with
  | EmptyString => EmptyString
  | String c s' =>
      match s' with
      | EmptyString => EmptyString
      | _ => String c (drop_last s')
      end
  end.

Definition slice_inner (s : string) : string :=
  match s with
  | EmptyString => EmptyString
  | String _ s' => drop_last s'
  end.

(** predictor.py:152-156 and 194-199: the ids are decoded without the
    special tokens, every phoneme loses its two outer characters, and the
    phonemes are joined by spaces. *)
Definition format_phonemes (self : Predictor) (pred : list Z) : string :=
  let out_phonemes := decode (phoneme_tokenizer self) pred true in
  let out_phonemes := map slice_inner out_phonemes in
  String.concat " " out_phonemes.

(** predictor.py:148-156: the result for one row of the model's output. *)
Definition format_row (self : Predictor) (output : list Z) : string :=
  let seq_len := _get_len_util_stop output (end_index (phoneme_tokenizer self)) in
  format_phonemes self (take seq_len output).

(** [Predictor.predict_words] (predictor.py:121-158): the loop over the
    chunks appends one string per row the model returns. *)
Definition predict_words (self : Predictor) (words : list string)
    (batch_size : nat) (lang : string) : list string :=
  let text_batches := u_batchify words batch_size in
  foldl (fun results text_batch =>
           let batch := make_batch self lang text_batch in
           let output_batch := (generate self batch).1 in
           results ++ map (format_row self) output_batch)
        [] text_batches.

(** [output_batch[0]] on a tensor without rows. *)
Inductive index_error := IndexError.

(** [Predictor.predict_word] (predictor.py:160-199): one word, the start
    index fixed to 1, and no cut at the stop id. *)
Definition predict_word (self : Predictor) (word lang : string)
  : result index_error string :=
  let word_numeric := encode (text_tokenizer self) word lang in
  let input_batch := pad_sequence [word_numeric] 0%Z in
  let lens_batch := [length word_numeric] in
  let start_index := 1%Z in
  let start_inds := replicate (length input_batch) start_index in
  let batch :=
    {| text := input_batch; text_len := lens_batch; start_index := start_inds |} in
  let output_batch := (generate self batch).1 in
  match output_batch with
  | [] => Raise IndexError
  | output_phonemes :: _ => Ok (format_phonemes self output_phonemes)
  end.

(** ** One result per word *)

Lemma predict_words_fold (self : Predictor) (lang : string)
    (batches : list (list string)) (results : list string) :
  foldl (fun results text_batch =>
           results ++ map (format_row self)
                          (generate self (make_batch self lang text_batch)).1)
        results batches
  = results ++ concat (map (fun tb =>
                  map (format_row self)
                      (generate self (make_batch self lang tb)).1) batches).
Proof.
  revert results. induction batches as [|tb batches IH]; intros results; simpl.
  - by rewrite app_nil_r.
  - by rewrite IH, <- app_assoc.
Qed.

Lemma predict_words_eq (self : Predictor) (words : list string)
    (batch_size : nat) (lang : string) :
  predict_words self words batch_size lang
  = concat (map (fun tb =>
             map (format_row self)
                 (generate self (make_batch self lang tb)).1)
           (u_batchify words batch_size)).
Proof. unfold predict_words. by rewrite predict_words_fold. Qed.

(** X7.  When the model returns one row per row of its batch,
    [predict_words] returns exactly one string per input word: unlike
    [__call__] it neither drops words that decode to nothing nor merges
    duplicates. *)
Theorem predict_words_length (self : Predictor) (words : list string)
    (batch_size : nat) (lang : string) :
  generate_shape self -> (0 < batch_size)%nat ->
  length (predict_words self words batch_size lang) = length words.
Proof.
  intros Hshape Hbs. rewrite predict_words_eq.
  rewrite <- (u_batchify_concat words batch_size Hbs) at 2.
  induction (u_batchify words batch_size) as [|tb batches IH];
    [reflexivity |].
  simpl. rewrite !length_app, IH, length_map.
  destruct (Hshape (make_batch self lang tb)) as [-> _].
  by rewrite make_batch_rows.
Qed.

Lemma predict_words_length_witness :
  length (predict_words width_predictor ["ab"; "!"; "ab"; "c"] 3 "en_us")
  = length ["ab"; "!"; "ab"; "c"].
Proof.
  apply (predict_words_length width_predictor).
  - apply width_shape.
  - lia.
Defined.

(** ** Agreement with [__call__] followed by the clean-up of [Infer] *)

Lemma drop_last_app_char (t : string) (c : ascii) :
  drop_last (t +:+ String c EmptyString) = t.
Proof.
  induction t as [|a t IH]; [reflexivity |].
  change (String a t +:+ String c "") with (String a (t +:+ String c "")).
  cbn [drop_last]. rewrite IH. by destruct t.
Qed.

Lemma slice_inner_bracket (t : string) :
  slice_inner ("[" +:+ t +:+ "]") = t.
Proof. apply drop_last_app_char. Qed.

(** Phonemes as the phoneme tokenizer writes them: a token between square
    brackets (predictor.py:154, "remove the [] surrounding the phoneme"). *)
Definition bracketed_tokens (l : list string) : Prop :=
  Forall (fun s => exists t, s = "[" +:+ t +:+ "]" /\ Infer.bracket_free t) l.

Lemma bracketed_tokens_inv (l : list string) :
  bracketed_tokens l ->
  exists ts, l = map (fun t => "[" +:+ t +:+ "]") ts /\
             forall t, t ∈ ts -> Infer.bracket_free t.
Proof.
  induction 1 as [|s l (t & -> & Ht) _ (ts & -> & Hts)].
  - exists []. split; [reflexivity |]. intros t Hin. by apply elem_of_nil in Hin.
  - exists (t :: ts). split; [reflexivity |].
    intros t' [->|Hin]%elem_of_cons; [exact Ht | by apply Hts].
Qed.

(** Dropping the outer characters and joining by spaces is the clean-up
    of [Infer.__call__] applied to the joined phonemes. *)
Lemma join_inner_is_clean (l : list string) :
  bracketed_tokens l ->
  String.concat " " (map slice_inner l) = Infer.clean (String.concat "" l).
Proof.
  intros (ts & -> & Hts)%bracketed_tokens_inv.
  rewrite map_map.
  rewrite (map_ext _ (fun t => t)) by (intros t; apply slice_inner_bracket).
  rewrite map_id. symmetry. by apply Infer.clean_bracketed.
Qed.

Lemma generate_rows_row_wise (self : Predictor) (lang : string) f
    (tb : list string) :
  row_wise self f ->
  (generate self (make_batch self lang tb)).1
  = map (fun t => (row_output self lang f t).1) tb.
Proof.
  intros Hrw. rewrite Hrw. cbn [fst].
  destruct (rows_make_batch self lang tb) as [m ->].
  rewrite map_map. apply map_ext. intros t. cbn [fst snd].
  unfold row_output. by rewrite take_app_length.
Qed.

Lemma predict_words_row_wise (self : Predictor) f (words : list string)
    (batch_size : nat) (lang : string) :
  row_wise self f -> (0 < batch_size)%nat ->
  predict_words self words batch_size lang
  = map (fun w => format_row self (row_output self lang f w).1) words.
Proof.
  intros Hrw Hbs. rewrite predict_words_eq.
  rewrite <- (u_batchify_concat words batch_size Hbs) at 2.
  induction (u_batchify words batch_size) as [|tb batches IH];
    [reflexivity |].
  simpl. rewrite map_app, IH.
  by rewrite (generate_rows_row_wise self lang f), map_map.
Qed.

(** X8.  With a model that treats each row on its own and a phoneme
    tokenizer that writes every phoneme between square brackets, the two
    ways to phonemes agree on every word that decodes to something: the
    string [predict_words] returns for it is the clean-up [Infer.__call__]
    makes of the [phonemes] of the prediction [__call__] returns for it. *)
Theorem predict_words_agrees_with_call (rt : Runtime) (self : Predictor)
    (f : list Z -> Z -> list Z * list Q)
    (words : list string) (lang : string) (batch_size : nat)
    (out : list Prediction) (i : nat) (w : string) (p : Prediction) :
  runtime_ok rt -> row_wise self f -> (0 < batch_size)%nat ->
  (forall tokens, bracketed_tokens (decode (phoneme_tokenizer self) tokens true)) ->
  call rt self words lang batch_size = Ok out ->
  words !! i = Some w -> decodes_empty self lang w = false ->
  out !! i = Some p ->
  predict_words self words batch_size lang !! i
  = Some (Infer.clean (phonemes p)).
Proof.
  intros Hrt Hrw Hbs Hdec Hcall Hw Hvalid Hp.
  rewrite (call_row_wise rt self f) in Hcall by assumption.
  injection Hcall as <-.
  change (map ?g ?l) with (g <$> l) in Hp.
  rewrite list_lookup_fmap, Hw in Hp. injection Hp as <-.
  rewrite (predict_words_row_wise self f) by assumption.
  change (map ?g ?l) with (g <$> l).
  rewrite list_lookup_fmap, Hw. cbn [fmap option_fmap option_map]. f_equal.
  unfold row_prediction, row_entry. rewrite Hvalid.
  unfold truncated. cbn [phonemes].
  unfold format_row, format_phonemes.
  apply join_inner_is_clean, Hdec.
Qed.

(** A phoneme tokenizer whose symbols are letters, each written between
    square brackets, on top of the echoing model. *)
Definition letter_symbol (z : Z) : string :=
  let c := ascii_of_nat (Z.to_nat z) in
  if is_letter c then String c EmptyString else "x".

Definition letters_predictor : Predictor :=
  {| generate := generate echo_predictor;
     text_tokenizer := stub_text_tokenizer;
     phoneme_tokenizer :=
       {| encode := stub_encode;
          decode := fun sequence remove_special_tokens =>
            map (fun z => "[" +:+ letter_symbol z +:+ "]")
                (if remove_special_tokens
                 then List.filter (fun z => Z.ltb 2 z) sequence else sequence);
          _get_start_index := fun _ => 1%Z;
          end_index := 2%Z |} |}.

Lemma letter_bracket_free (c : ascii) :
  is_letter c = true -> Infer.bracket_free (String c EmptyString).
Proof.
  destruct c as [[] [] [] [] [] [] [] []]; intros H;
    solve [discriminate H | by split].
Qed.

Lemma letter_symbol_bracket_free (z : Z) : Infer.bracket_free (letter_symbol z).
Proof.
  unfold letter_symbol.
  destruct (is_letter (ascii_of_nat (Z.to_nat z))) eqn:Hc.
  - by apply letter_bracket_free.
  - by split.
Qed.

Lemma letters_decode_bracketed (tokens : list Z) :
  bracketed_tokens (decode (phoneme_tokenizer letters_predictor) tokens true).
Proof.
  cbn [decode phoneme_tokenizer letters_predictor].
  apply Forall_forall. intros s (z & -> & _)%list_elem_of_fmap.
  exists (letter_symbol z). split; [reflexivity |].
  apply letter_symbol_bracket_free.
Qed.

Lemma predict_words_agrees_with_call_witness :
  predict_words letters_predictor ["ab"; "!"; "ab"; "c"] 2 "en_us" !! 0%nat
  = Some (Infer.clean
            (phonemes {| word := "ab"; phonemes := "[a][b]";
                         phoneme_tokens := ["[a]"; "[b]"];
                         confidence := (1 # 4)%Q;
                         token_probs := [(1 # 2)%Q; (1 # 2)%Q] |})).
Proof.
  eapply (predict_words_agrees_with_call py_runtime letters_predictor echo_row
            ["ab"; "!"; "ab"; "c"] "en_us" 2 _ 0 "ab").
  - apply py_runtime_ok.
  - intros b. reflexivity.
  - lia.
  - apply letters_decode_bracketed.
  - vm_compute. reflexivity.
  - reflexivity.
  - reflexivity.
  - reflexivity.
Defined.

(** ** One word at a time *)

(** X9.  For a language whose start index is 1 and a model that answers
    the batch of the single word with the single row [o]:
    [predict_word] returns the phonemes of the whole of [o], ids after the
    stop id included, while [predict_words] on the one-word list returns
    those of [o] cut at [seq_len]; the two are the same string when [o]
    holds no stop id. *)
Theorem predict_word_vs_predict_words (self : Predictor) (w lang : string)
    (batch_size : nat) (o : list Z) :
  (0 < batch_size)%nat ->
  _get_start_index (phoneme_tokenizer self) lang = 1%Z ->
  (generate self (make_batch self lang [w])).1 = [o] ->
  predict_word self w lang = Ok (format_phonemes self o) /\
  predict_words self [w] batch_size lang = [format_row self o] /\
  (end_index (phoneme_tokenizer self) ∉ o ->
   predict_words self [w] batch_size lang = [format_phonemes self o]).
Proof.
  intros Hbs Hstart Hgen.
  assert (Hbatch : make_batch self lang [w]
                   = {| text := pad_sequence [encode (text_tokenizer self) w lang] 0%Z;
                        text_len := [length (encode (text_tokenizer self) w lang)];
                        start_index :=
                          replicate
                            (length (pad_sequence
                                       [encode (text_tokenizer self) w lang] 0%Z))
                            1%Z |}).
  { unfold make_batch. cbn [map]. by rewrite Hstart. }
  assert (Hwords : predict_words self [w] batch_size lang = [format_row self o]).
  { rewrite predict_words_eq.
    assert (Hchunk : u_batchify [w] batch_size = [[w]]).
    { destruct batch_size as [|n]; [lia |]. by destruct n. }
    rewrite Hchunk. cbn [map concat]. by rewrite Hgen. }
  split; [| split].
  - unfold predict_word. rewrite <- Hbatch, Hgen. reflexivity.
  - exact Hwords.
  - intros Hstop. rewrite Hwords. unfold format_row.
    rewrite len_util_stop_absent by assumption. by rewrite firstn_all.
Qed.

Lemma predict_word_vs_predict_words_witness :
  predict_word echo_predictor "ab" "en_us"
  = Ok (format_phonemes echo_predictor [97%Z; 98%Z; 2%Z; 0%Z]) /\
  predict_words echo_predictor ["ab"] 4 "en_us"
  = [format_row echo_predictor [97%Z; 98%Z; 2%Z; 0%Z]] /\
  predict_word echo_predictor "ab" "en_us" = Ok "a b" /\
  predict_words echo_predictor ["ab"] 4 "en_us" = ["a b"].
Proof.
  destruct (predict_word_vs_predict_words echo_predictor "ab" "en_us" 4
              [97%Z; 98%Z; 2%Z; 0%Z]) as (Hword & Hwords & _).
  - lia.
  - reflexivity.
  - reflexivity.
  - split; [exact Hword |]. split; [exact Hwords |].
    split; vm_compute; reflexivity.
Defined.

End PredictWords.

(** * More on checkpoint provisioning: data/remote.py and Infer.__init__ *)

Module RemoteFacts.
Import Remote.


(** [check_model] leaves the file alone and issues at most its own
    warning. *)
Lemma check_model_state (env : Env) (st st1 : State) (b : bool) :
  check_model env st = Ok (b, st1) ->
  st1 = st \/ (b = false /\ st1 = warn no_checksum_warning st).
Proof.
  unfold check_model.
  destruct (ptr_text env) as [text|e]; [| discriminate]. cbn [bind].
  destruct (_ || _).
  - intros [= <- <-]. by right.
  - destruct (get_checksum st) as [actual|e]; [| discriminate]. cbn [bind].
    intros [= _ <-]. by left.
Qed.

(** X10.  Construction needs the server even when the checkpoint file is
    there: if the request for the remote pointer fails, [Infer.__init__]
    fails with the error of the request, and the checkpoint is not loaded. *)
Theorem init_needs_network (env : Env) (st : State) (file : Checkpoint)
    (e : error) :
  local_model st = Some file -> ptr_text env = Raise e ->
  init env st = Raise e.
Proof.
  intros Hfile Hptr. unfold init.
  rewrite (ensure_download_present env st file Hfile). cbn [bind].
  unfold check_updates, check_model. rewrite Hptr. reflexivity.
Qed.

(** The server of the claims, unreachable for the pointer request. *)
Definition server_unreachable : Env :=
  {| ptr_text := Raise ConnectionError;
     model_download := Raise ConnectionError;
     from_checkpoint := fun _ => Ok (Infer.model Infer.spelling_infer) |}.

Lemma init_needs_network_witness :
  init server_unreachable (mkState (Some (mkCheckpoint "bb22")) [])
  = Raise ConnectionError.
Proof.
  apply (init_needs_network server_unreachable
           (mkState (Some (mkCheckpoint "bb22")) []) (mkCheckpoint "bb22"));
    reflexivity.
Defined.

(** X11.  When a checkpoint file exists, a construction that succeeds has
    loaded that very file and left it in place (it is never downloaded
    again or overwritten); it has set the language "en_us" and the batch
    size 32, and has only added warnings, two at most. *)
Theorem init_keeps_local_checkpoint (env : Env) (st st' : State)
    (file : Checkpoint) (inf : Infer.Infer) :
  local_model st = Some file ->
  init env st = Ok (inf, st') ->
  local_model st' = Some file /\
  from_checkpoint env file = Ok (Infer.model inf) /\
  Infer.lang inf = "en_us" /\ Infer.batch_size inf = 32%nat /\
  exists ws, warnings st' = warnings st ++ ws /\ (length ws <= 2)%nat.
Proof.
  intros Hfile. unfold init.
  rewrite (ensure_download_present env st file Hfile). cbn [bind].
  unfold check_updates.
  destruct (check_model env st) as [[b st1]|e] eqn:Hcm; [| discriminate].
  cbn [bind].
  assert (Hst1 : local_model st1 = Some file /\
                 exists ws1, warnings st1 = warnings st ++ ws1 /\
                             (length ws1 <= 1)%nat).
  { apply check_model_state in Hcm as [->|[_ ->]].
    - split; [exact Hfile |]. exists [].
      split; [by rewrite app_nil_r | simpl; lia].
    - split; [exact Hfile |]. exists [no_checksum_warning].
      split; [reflexivity | simpl; lia]. }
  destruct Hst1 as [Hfile1 (ws1 & Hws1 & Hlen1)].
  destruct b; cbn [negb bind]; unfold get_checkpoint; cbn [warn local_model];
    rewrite Hfile1; cbn [bind];
    destruct (from_checkpoint env file) as [model|e]; try discriminate;
    cbn [bind]; intros [= <- <-]; cbn [local_model warnings Infer.model
                                         Infer.lang Infer.batch_size].
  - do 4 (split; [done |]). exists ws1. split; [exact Hws1 | lia].
  - do 4 (split; [done |]).
    exists (ws1 ++ [mismatch_warning]). unfold warn. cbn [warnings].
    rewrite Hws1, <- app_assoc.
    split; [reflexivity |]. rewrite length_app. simpl. lia.
Qed.

Lemma init_keeps_local_checkpoint_witness :
  local_model (mkState (Some (mkCheckpoint "aa11")) [mismatch_warning])
  = Some (mkCheckpoint "aa11") /\
  from_checkpoint server_up (mkCheckpoint "aa11")
  = Ok (Infer.model Infer.spelling_infer) /\
  Infer.lang Infer.spelling_infer = "en_us" /\
  Infer.batch_size Infer.spelling_infer = 32%nat /\
  exists ws,
    warnings (mkState (Some (mkCheckpoint "aa11")) [mismatch_warning])
    = warnings (mkState (Some (mkCheckpoint "aa11")) []) ++ ws /\
    (length ws <= 2)%nat.
Proof.
  apply (init_keeps_local_checkpoint server_up
           (mkState (Some (mkCheckpoint "aa11")) [])).
  - reflexivity.
  - vm_compute. reflexivity.
Defined.







(** ** Reading a Git LFS pointer (remote.py:14-18) *)

#[local] Arguments String.append !_ _ / : simpl nomatch.








End RemoteFacts.

(** * More on Infer.__call__: infer.py:28 *)

Module InferFacts.
Import PyStr.

Lemma replace_boundary_absent (s : string) :
  contains "]" s = false -> replace "][" " " s = s.
Proof.
  intros Hs. unfold replace.
  rewrite <- (app_nil_r s) at 1.
  rewrite Infer.replace_boundary_skip by assumption.
  apply app_nil_r.
Qed.

Lemma clean_bracket_free (s : string) :
  Infer.bracket_free s -> Infer.clean s = s.
Proof.
  intros [Ho Hc]. unfold Infer.clean.
  rewrite replace_boundary_absent by assumption.
  rewrite !replace_char_empty.
  by rewrite (remove_char_absent "[" s), (remove_char_absent "]" s).
Qed.

(** X16.  The clean-up of [Infer.__call__] settles at once: cleaning a
    cleaned string changes nothing, so the list [Infer.__call__] returns is
    left as it is by a second clean-up; and a phoneme string without
    square brackets passes through unchanged, spaces included. *)
Theorem clean_idempotent (self : Infer.Infer) (words : list string)
    (r : string) :
  Infer.clean (Infer.clean r) = Infer.clean r /\
  map Infer.clean (Infer.call self words) = Infer.call self words /\
  (Infer.bracket_free r -> Infer.clean r = r).
Proof.
  split; [| split].
  - apply clean_bracket_free, Infer.clean_no_brackets.
  - unfold Infer.call. rewrite map_map. apply map_ext. intros r'.
    apply clean_bracket_free, Infer.clean_no_brackets.
  - apply clean_bracket_free.
Qed.

Lemma clean_idempotent_witness :
  Infer.clean (Infer.clean "[HH][AH0] [L][OW1]") = Infer.clean "[HH][AH0] [L][OW1]" /\
  Infer.clean "[HH][AH0] [L][OW1]" = "HH AH0 L OW1" /\
  Infer.clean "HH AH0  L OW1" = "HH AH0  L OW1".
Proof.
  destruct (clean_idempotent Infer.spelling_infer [] "[HH][AH0] [L][OW1]")
    as (Hidem & _ & _).
  destruct (clean_idempotent Infer.spelling_infer [] "HH AH0  L OW1")
    as (_ & _ & Hid).
  split; [exact Hidem |]. split; [reflexivity |].
  apply Hid. by split.
Defined.

End InferFacts.
